(** * Music recommender: the similarity engine of [Music_Recommender_System.py]

    A shallow embedding of the recommendation engine (catalog lookup,
    seed aggregation, the two fitted scalers, distance ranking and the
    selection loop) together with the properties its specification states.

    Conventions of the embedding.
    - Python floats are idealised as exact rationals ([Q]); equality of
      numbers is [Qeq].  The one irrational primitive, the square root, is a
      parameter [sqrt] of the development: no theorem depends on what it
      computes.  Bounds and identities that rounding breaks (a normalized
      value of at most 1, a standardized column of mean 0, a mean that does
      not depend on the order of its terms) are not among the properties.
    - A raised Python exception is a value [Raise e] of [result]; [None] is
      [None] of [option].
    - A seed song, a dictionary with the one key ['name'], is the string
      under that key.
    - [str.lower] folds the ASCII letters only.
    - pandas, numpy, scipy and scikit-learn are not part of the program; the
      few operations the engine calls are written out from their documented
      behaviour, each under the name the program calls it by. *)

From Stdlib Require Import Ascii String.
From Stdlib Require Import List Bool Arith ZArith QArith Qminmax Lia.
From Stdlib Require Import Permutation Sorted Mergesort Orders.
Import ListNotations.

Open Scope string_scope.
Open Scope Q_scope.
Open Scope list_scope.

(** ** Exceptions *)

Inductive exn : Type :=
| IndexError
| ValueError
| KeyError.

Inductive result (A : Type) : Type :=
| Ok (a : A)
| Raise (e : exn).

Arguments Ok {A} a.
Arguments Raise {A} e.

Definition bind {A B : Type} (m : result A) (k : A -> result B) : result B :=
  match m with
  | Ok a => k a
  | Raise e => Raise e
  end.

Notation "x <- m ;; k" := (bind m (fun x => k))
  (at level 61, m at next level, right associativity).

(** [try: m except e => d], the result of [m] unless it raises [e]. *)
Definition try_except {A : Type} (m : result A) (e : exn) (d : A) : result A :=
  match m with
  | Ok a => Ok a
  | Raise e' =>
      match e, e' with
      | IndexError, IndexError | ValueError, ValueError | KeyError, KeyError => Ok d
      | _, _ => Raise e'
      end
  end.

(** ** Strings *)

Definition lower_ascii (c : ascii) : ascii :=
  let n := nat_of_ascii c in
  if ((65 <=? n) && (n <=? 90))%nat then ascii_of_nat (n + 32) else c.

Fixpoint str_lower (s : string) : string :=
  match s with
  | EmptyString => EmptyString
  | String c s' => String (lower_ascii c) (str_lower s')
  end.

(** [x in xs] on a Python list of strings. *)
Definition str_in (x : string) (xs : list string) : bool :=
  existsb (String.eqb x) xs.

(** ** The catalog *)

Definition number_cols : list string :=
  ["valence"; "year"; "acousticness"; "danceability"; "duration_ms"; "energy";
   "explicit"; "instrumentalness"; "key"; "liveness"; "loudness"; "mode";
   "popularity"; "speechiness"; "tempo"].

(** One row of [data].  [nums] holds the row's values under [number_cols],
    in that order; [year] is the second of them. *)
Record Row : Type := {
  name : string;
  artists : string;
  nums : list Q
}.

Definition year (r : Row) : Q := nth 1 (nums r) 0.

(** A frame with the default range index: row [i] has label [i]. *)
Definition DataFrame : Type := list Row.

(** A row taken out of a frame keeps its label. *)
Record Series : Type := {
  label : nat;
  values : Row
}.

Fixpoint rows_from (i : nat) (df : DataFrame) : list Series :=
  match df with
  | [] => []
  | r :: df' => {| label := i; values := r |} :: rows_from (S i) df'
  end.

Definition rows (df : DataFrame) : list Series := rows_from 0 df.

(** [df[mask]]: the rows a boolean mask keeps, in storage order. *)
Definition select_mask (mask : Row -> bool) (df : DataFrame) : list Series :=
  filter (fun s => mask (values s)) (rows df).

(** [.iloc[i]] on a selection and on a frame. *)
Definition iloc_sel (sel : list Series) (i : nat) : result Series :=
  match nth_error sel i with
  | Some s => Ok s
  | None => Raise IndexError
  end.

Definition iloc (df : DataFrame) (i : nat) : result Series :=
  iloc_sel (rows df) i.

(** ** [get_song_data] *)

Definition get_song_data (name0 : string) (data : DataFrame) : result (option Series) :=
  try_except
    (s <- iloc_sel (select_mask (fun r => String.eqb (str_lower (name r)) name0) data) 0;;
     Ok (Some s))
    IndexError None.

(** ** Vectors and matrices *)

Definition vec : Type := list Q.

Fixpoint map2 {A B C : Type} (f : A -> B -> C) (u : list A) (v : list B) : list C :=
  match u, v with
  | a :: u', b :: v' => f a b :: map2 f u' v'
  | _, _ => []
  end.

Fixpoint mapM {A B : Type} (f : A -> result B) (l : list A) : result (list B) :=
  match l with
  | [] => Ok []
  | a :: l' => b <- f a;; bs <- mapM f l';; Ok (b :: bs)
  end.

Definition Qsum (l : list Q) : Q := fold_left Qplus l 0.

Definition of_nat (n : nat) : Q := inject_Z (Z.of_nat n).

(** Column-wise reductions of a matrix with at least one row [r]. *)
Definition col_sum (r : vec) (rest : list vec) : vec := fold_left (map2 Qplus) rest r.
Definition col_min (r : vec) (rest : list vec) : vec := fold_left (map2 Qmin) rest r.
Definition col_max (r : vec) (rest : list vec) : vec := fold_left (map2 Qmax) rest r.

Definition col_mean (r : vec) (rest : list vec) : vec :=
  map (fun x => x / of_nat (S (length rest))) (col_sum r rest).

(** What [np.mean(m, axis=0)] gives: the column means of a matrix, and the
    scalar nan (with a warning) for the empty array. *)
Inductive ndarray : Type :=
| nan_scalar
| array1 (v : vec).

Definition np_mean_axis0 (m : list vec) : ndarray :=
  match m with
  | [] => nan_scalar
  | r :: rest => array1 (col_mean r rest)
  end.

(** [r[number_cols]]: a row that lacks one of the columns raises. *)
Definition getitem_number_cols (r : Row) : result vec :=
  if (length (nums r) =? length number_cols)%nat then Ok (nums r) else Raise KeyError.

(** scikit-learn's input validation: [X] must be two-dimensional, here a
    list of rows of [n_features] numbers each. *)
Definition check_array (x : list ndarray) : result (list vec) :=
  mapM (fun a => match a with
                 | nan_scalar => Raise ValueError
                 | array1 v => Ok v
                 end) x.

Definition check_n_features (n_features : nat) (X : list vec) : result (list vec) :=
  if forallb (fun v => (length v =? n_features)%nat) X then Ok X else Raise ValueError.

(** scikit-learn's [_handle_zeros_in_scale]: entries of a scale that are
    zero become one, so that a constant column is left unscaled.  (Recent
    versions also take a scale below ten machine epsilons for zero; exact
    numbers have no such scale.) *)
Definition handle_zeros_in_scale (scale : vec) : vec :=
  map (fun s => if Qeq_bool s 0 then 1 else s) scale.

(** ** [MinMaxScaler], with the default feature range (0, 1) *)

Module MinMaxScaler.

Record t : Type := {
  n_features_in_ : nat;
  data_min_ : vec;
  data_max_ : vec;
  data_range_ : vec;
  scale_ : vec;
  min_ : vec
}.

Definition fit (X : list vec) : result t :=
  match X with
  | [] => Raise ValueError
  | r :: rest =>
      _ <- check_n_features (length r) rest;;
      let data_min := col_min r rest in
      let data_max := col_max r rest in
      let data_range := map2 Qminus data_max data_min in
      let scale := map (fun d => (1 - 0) / d) (handle_zeros_in_scale data_range) in
      Ok {| n_features_in_ := length r;
            data_min_ := data_min;
            data_max_ := data_max;
            data_range_ := data_range;
            scale_ := scale;
            min_ := map2 (fun m s => 0 - m * s) data_min scale |}
  end.

Definition transform_row (sc : t) (x : vec) : vec :=
  map2 Qplus (map2 Qmult x (scale_ sc)) (min_ sc).

Definition transform (sc : t) (X : list vec) : result (list vec) :=
  X <- check_n_features (n_features_in_ sc) X;;
  Ok (map (transform_row sc) X).

Definition fit_transform (X : list vec) : result (t * list vec) :=
  sc <- fit X;;
  Y <- transform sc X;;
  Ok (sc, Y).

End MinMaxScaler.

(** ** Ranking: [np.argsort] *)

(** Indexed distances ordered by distance.  numpy leaves the order of equal
    keys open, and so do the statements below: the merge sort used here
    puts equal keys in an order of its own. *)
Module DistOrder <: TotalLeBool.
Definition t : Type := (nat * Q)%type.
Definition leb (x y : t) : bool := Qle_bool (snd x) (snd y).
Infix "<=?" := leb (at level 70, no associativity).
Theorem leb_total : forall x y, (x <=? y) = true \/ (y <=? x) = true.
Proof.
  intros x y. unfold leb. rewrite !Qle_bool_iff.
  destruct (Qlt_le_dec (snd y) (snd x)) as [H | H].
  - right. now apply Qlt_le_weak.
  - now left.
Qed.
End DistOrder.

Module DistSort := Sort DistOrder.

Definition enumerate (d : vec) : list (nat * Q) := combine (seq 0 (length d)) d.

Definition np_argsort (d : vec) : list nat := map fst (DistSort.sort (enumerate d)).

(** ** [StandardScaler] *)

Module StandardScaler.

Record t : Type := {
  n_features_in_ : nat;
  mean_ : vec;
  var_ : vec;
  scale_ : vec
}.

Definition sq_dev (mean x : vec) : vec :=
  map2 (fun a m => (a - m) * (a - m)) x mean.

Definition transform_row (sc : t) (x : vec) : vec :=
  map2 Qdiv (map2 Qminus x (mean_ sc)) (scale_ sc).

Definition transform (sc : t) (X : list vec) : result (list vec) :=
  X <- check_n_features (n_features_in_ sc) X;;
  Ok (map (transform_row sc) X).

Section Fit.

Variable sqrt : Q -> Q.

(** The variance is that of the population: the mean of the squared
    deviations from the mean. *)
Definition fit (X : list vec) : result t :=
  match X with
  | [] => Raise ValueError
  | r :: rest =>
      _ <- check_n_features (length r) rest;;
      let mean := col_mean r rest in
      let var := col_mean (sq_dev mean r) (map (sq_dev mean) rest) in
      Ok {| n_features_in_ := length r;
            mean_ := mean;
            var_ := var;
            scale_ := handle_zeros_in_scale (map sqrt var) |}
  end.

Definition fit_transform (X : list vec) : result (t * list vec) :=
  sc <- fit X;;
  Y <- transform sc X;;
  Ok (sc, Y).

End Fit.

End StandardScaler.

(** ** The fitted state of the program *)

Record Globals : Type := {
  min_max_scaler : MinMaxScaler.t;
  standard_scaler : StandardScaler.t;
  scaled_normalized_data : list vec
}.

(** The records [recommend_songs] returns: [metadata_cols] of a row. *)
Record Song : Type := {
  song_name : string;
  song_artists : string;
  song_year : Q
}.

Definition metadata (s : Series) : Song :=
  {| song_name := name (values s);
     song_artists := artists (values s);
     song_year := year (values s) |}.

(** [pd.DataFrame(rec_songs)[metadata_cols].to_dict(orient='records')]: a
    frame built from no rows has no columns, and selecting from it raises. *)
Definition to_dict_records (rec_songs : list Series) : result (list Song) :=
  match rec_songs with
  | [] => Raise KeyError
  | _ :: _ => Ok (map metadata rec_songs)
  end.

Definition n_cols (X : list vec) : nat :=
  match X with
  | [] => 0%nat
  | r :: _ => length r
  end.

Definition getitem0 {A : Type} (l : list A) : result A :=
  match l with
  | [] => Raise IndexError
  | a :: _ => Ok a
  end.

(** ** [get_mean_vector] *)

(** The [for] loop of [get_mean_vector]: [None] as soon as a song is not in
    the dataset, the collected vectors otherwise. *)
Fixpoint collect_vectors (song_list : list string) (data : DataFrame)
    (song_vectors : list vec) : result (option (list vec)) :=
  match song_list with
  | [] => Ok (Some song_vectors)
  | song :: song_list' =>
      song_data <- get_song_data song data;;
      match song_data with
      | None => Ok None
      | Some s =>
          song_vector <- getitem_number_cols (values s);;
          collect_vectors song_list' data (song_vectors ++ [song_vector])
      end
  end.

Definition get_mean_vector (song_list : list string) (data : DataFrame)
    : result (option ndarray) :=
  r <- collect_vectors song_list data [];;
  match r with
  | None => Ok None
  | Some song_matrix => Ok (Some (np_mean_axis0 song_matrix))
  end.

(** ** [recommend_songs] *)

(** The selection loop: [index] is what is left to visit, [rec_songs] what
    has been appended so far. *)
Fixpoint select_loop (seed_songs : list string) (data : DataFrame) (n_recommendations : Z)
    (index : list nat) (rec_songs : list Series) : result (list Series) :=
  match index with
  | [] => Ok rec_songs
  | i :: index' =>
      row <- iloc data i;;
      let song := name (values row) in
      if negb (str_in song seed_songs)
         && negb (str_in song (map (fun s => name (values s)) rec_songs))
      then
        let rec_songs' := rec_songs ++ [row] in
        if (Z.of_nat (length rec_songs') =? n_recommendations)%Z
        then Ok rec_songs'
        else select_loop seed_songs data n_recommendations index' rec_songs'
      else select_loop seed_songs data n_recommendations index' rec_songs
  end.

Section Engine.

Variable sqrt : Q -> Q.

Definition euclidean (u v : vec) : Q :=
  sqrt (Qsum (map2 (fun a b => (a - b) * (a - b)) u v)).

(** [cdist(XA, XB, 'euclidean')] *)
Definition cdist (XA XB : list vec) : result (list vec) :=
  if (n_cols XA =? n_cols XB)%nat
  then Ok (map (fun u => map (euclidean u) XB) XA)
  else Raise ValueError.

(** The module-level fitting (lines 66 to 71). *)
Definition startup (data : DataFrame) : result Globals :=
  X <- mapM getitem_number_cols data;;
  fitted_mm <- MinMaxScaler.fit_transform X;;
  let (mm, normalized_data) := fitted_mm in
  fitted_ss <- StandardScaler.fit_transform sqrt normalized_data;;
  let (ss, scaled) := fitted_ss in
  Ok {| min_max_scaler := mm;
        standard_scaler := ss;
        scaled_normalized_data := scaled |}.

(** Lines 45 to 48: the song center through both scalers. *)
Definition scale_center (G : Globals) (song_center : ndarray) : result (list vec) :=
  X <- check_array [song_center];;
  normalized_song_center <- MinMaxScaler.transform (min_max_scaler G) X;;
  StandardScaler.transform (standard_scaler G) normalized_song_center.

(** Lines 51 and 52: the catalog indices by distance to the center. *)
Definition rank (G : Globals) (scaled_normalized_song_center : list vec) : result (list nat) :=
  distances <- cdist scaled_normalized_song_center (scaled_normalized_data G);;
  getitem0 (map np_argsort distances).

(** Lines 44 to 61: from the song center to the rows selected. *)
Definition select (G : Globals) (seed_songs : list string) (data : DataFrame)
    (n_recommendations : Z) (song_center : ndarray) : result (list Series) :=
  scaled_normalized_song_center <- scale_center G song_center;;
  index <- rank G scaled_normalized_song_center;;
  select_loop seed_songs data n_recommendations index [].

Definition recommend_songs (G : Globals) (seed_songs : list string) (data : DataFrame)
    (n_recommendations : Z) : result (list Song) :=
  song_center <- get_mean_vector seed_songs data;;
  match song_center with
  | None => Ok []
  | Some song_center =>
      rec_songs <- select G seed_songs data n_recommendations song_center;;
      to_dict_records rec_songs
  end.

End Engine.

(** A square root for running the engine on concrete catalogs: the root
    truncated to 26 binary digits after the point. *)
Definition Qsqrt (q : Q) : Q :=
  Qred (Z.sqrt (Qnum q * 4 ^ 26 / Zpos (Qden q)) # 2 ^ 26).

(** Line 48 as a function of the request: the normalized seed center. *)
Definition query_center (G : Globals) (seed_songs : list string)
    (data : DataFrame) : result (option (list vec)) :=
  song_center <- get_mean_vector seed_songs data;;
  match song_center with
  | None => Ok None
  | Some song_center => c <- scale_center G song_center;; Ok (Some c)
  end.

(** ** The running program *)

(** What the engine reads while the program runs: the frame that [data]
    names and the three globals fitted at startup. *)
Record State : Type := {
  st_data : DataFrame;
  st_globals : Globals
}.

(** The world a call runs in: the objects it can reach, and the standard
    output, as the lines printed so far. *)
Record World : Type := {
  w_state : State;
  stdout : list string
}.

(** A statement of the program.  It starts in a world and leaves one,
    having returned a value or raised; what was done before an exception
    stays done. *)
Definition Run (A : Type) : Type := World -> result A * World.

Definition ret {A : Type} (a : A) : Run A := fun w => (Ok a, w).

Definition and_then {A B : Type} (m : Run A) (k : A -> Run B) : Run B :=
  fun w =>
    match m w with
    | (Ok a, w') => k a w'
    | (Raise e, w') => (Raise e, w')
    end.

Notation "x <~ m ;; k" := (and_then m (fun x => k))
  (at level 61, m at next level, right associativity).

(** An expression on values: it reads and writes no object. *)
Definition eval {A : Type} (r : result A) : Run A := fun w => (r, w).

(** Reading through the names [data], [min_max_scaler], [standard_scaler]
    and [scaled_normalized_data]. *)
Definition deref_data : Run DataFrame :=
  fun w => (Ok (st_data (w_state w)), w).

Definition deref_global {A : Type} (field : Globals -> A) : Run A :=
  fun w => (Ok (field (st_globals (w_state w))), w).

Definition print (line : string) : Run unit :=
  fun w => (Ok tt, {| w_state := w_state w; stdout := stdout w ++ [line] |}).

(** [get_mean_vector] as it runs: the lookup of each song in the frame, the
    warning printed for the first song that is missing (line 28). *)
Fixpoint collect_vectors_run (song_list : list string) (song_vectors : list vec)
    : Run (option (list vec)) :=
  match song_list with
  | [] => ret (Some song_vectors)
  | song :: song_list' =>
      data <~ deref_data;;
      song_data <~ eval (get_song_data song data);;
      match song_data with
      | None =>
          _ <~ print ("Warning: " ++ song ++ " does not exist in the dataset")%string;;
          ret None
      | Some s =>
          song_vector <~ eval (getitem_number_cols (values s));;
          collect_vectors_run song_list' (song_vectors ++ [song_vector])
      end
  end.

Definition get_mean_vector_run (song_list : list string) : Run (option ndarray) :=
  r <~ collect_vectors_run song_list [];;
  match r with
  | None => ret None
  | Some song_matrix => ret (Some (np_mean_axis0 song_matrix))
  end.

(** [recommend_songs] as it runs, statement by statement: both scalers and
    the scaled matrix are read where the code names them, and neither
    [transform] writes to its scaler or to its argument. *)
Definition recommend_songs_run (sqrt : Q -> Q) (seed_songs : list string)
    (n_recommendations : Z) : Run (list Song) :=
  song_center <~ get_mean_vector_run seed_songs;;
  match song_center with
  | None => ret []
  | Some song_center =>
      mm <~ deref_global min_max_scaler;;
      X <~ eval (check_array [song_center]);;
      normalized_song_center <~ eval (MinMaxScaler.transform mm X);;
      ss <~ deref_global standard_scaler;;
      scaled_normalized_song_center <~
        eval (StandardScaler.transform ss normalized_song_center);;
      matrix <~ deref_global scaled_normalized_data;;
      distances <~ eval (cdist sqrt scaled_normalized_song_center matrix);;
      index <~ eval (getitem0 (map np_argsort distances));;
      data <~ deref_data;;
      rec_songs <~ eval (select_loop seed_songs data n_recommendations index []);;
      eval (to_dict_records rec_songs)
  end.

(** Lines 108 to 122: what pressing the button does with the names
    entered.  The names are lowercased, the blank ones dropped, and the
    engine is called only when a name is left. *)
Inductive response : Type :=
| warning (msg : string)
| chart (recommended_songs : list Song).

Definition on_recommend (sqrt : Q -> Q) (input_song_names : list string)
    (n_recommendations : Z) (st : State) : result response :=
  let seed_songs := map str_lower input_song_names in
  let seed_songs := filter (fun song => negb (String.eqb song "")) seed_songs in
  match seed_songs with
  | [] => Ok (warning "Please enter at least one song name.")
  | _ :: _ =>
      recommended_songs <-
        recommend_songs sqrt (st_globals st) seed_songs (st_data st) n_recommendations;;
      match recommended_songs with
      | [] => Ok (warning "No recommendations available based on the provided songs.")
      | _ :: _ => Ok (chart recommended_songs)
      end
  end.

(** ** The prompt (lines 79 to 105) *)

(** Line 88, [f"{x['name']} by {x['artists']} ({x['year']})"]: the label of
    a catalog row among the radio buttons; [yr] is the year as printed. *)
Definition radio_label (nm art yr : string) : string :=
  (nm ++ " by " ++ art ++ " (" ++ yr ++ ")")%string.

(** [s.split(sep)[0]] for a separator that is not empty: [s] up to the first
    occurrence of [sep], all of [s] when there is none. *)
Fixpoint split0 (sep s : string) : string :=
  if String.prefix sep s then EmptyString
  else match s with
       | EmptyString => EmptyString
       | String c s' => String c (split0 sep s')
       end.

(** The characters [str.strip()] removes, among the ASCII ones. *)
Definition is_space (c : ascii) : bool :=
  let n := nat_of_ascii c in
  (((9 <=? n) && (n <=? 13)) || ((28 <=? n) && (n <=? 32)))%nat.

Fixpoint lstrip (s : string) : string :=
  match s with
  | EmptyString => EmptyString
  | String c s' => if is_space c then lstrip s' else s
  end.

Fixpoint rstrip (s : string) : string :=
  match s with
  | EmptyString => EmptyString
  | String c s' =>
      match rstrip s' with
      | EmptyString => if is_space c then EmptyString else String c EmptyString
      | String c' t => String c (String c' t)
      end
  end.

Definition strip (s : string) : string := rstrip (lstrip s).

Definition newline : ascii := ascii_of_nat 10.

(** [s.split('\n')] *)
Fixpoint split_lines (s : string) : list string :=
  match s with
  | EmptyString => [EmptyString]
  | String c s' =>
      if Ascii.eqb c newline then EmptyString :: split_lines s'
      else match split_lines s' with
           | [] => [String c EmptyString]
           | piece :: pieces => String c piece :: pieces
           end
  end.

(** Lines 79 to 97: [song_names] once the prompt has run; [selected_song]
    is the radio button chosen, [None] when no button is shown (nothing
    typed, or no song matching what was typed). *)
Definition song_names_after_prompt (selected_song : option string) : string :=
  match selected_song with
  | None => EmptyString
  | Some selected =>
      if String.eqb selected "" then EmptyString else split0 " by " selected
  end.

(** Line 105. *)
Definition input_song_names (song_names : string) : list string :=
  if String.eqb song_names "" then [] else split_lines (strip song_names).

(** ** The charts (lines 136 to 157) *)

Definition popularity (r : Row) : Q := nth 12 (nums r) 0.

(** The rows of a frame at the given positions, in the order given. *)
Definition take_positions {A : Type} (l : list A) (positions : list nat) : list A :=
  flat_map (fun i => match nth_error l i with
                     | Some a => [a]
                     | None => []
                     end) positions.

(** [data.nlargest(n, 'popularity')]: the rows by popularity, largest
    first, cut after [n].  Among equally popular rows pandas keeps the
    storage order; the sort used here does not, and no statement below says
    which of them come first. *)
Definition nlargest_popularity (n : nat) (data : DataFrame) : DataFrame :=
  take_positions data (firstn n (np_argsort (map (fun r => - popularity r) data))).

(** Line 138. *)
Definition top_songs (data : DataFrame) : DataFrame := nlargest_popularity 20 data.

(** Line 146, on the year of a release date. *)
Definition release_decade (release_year : Z) : Z := (release_year / 10 * 10)%Z.

(** [.value_counts()]: each value that occurs, with the number of times it
    does.  pandas lists them by falling count; here they come in the order
    of their first occurrence, and [sort_index] below settles the order. *)
Definition value_counts (l : list Z) : list (Z * nat) :=
  map (fun v => (v, count_occ Z.eq_dec l v)) (nodup Z.eq_dec l).

(** [.sort_index()] *)
Definition sort_index (counts : list (Z * nat)) : list (Z * nat) :=
  take_positions counts (np_argsort (map (fun p => inject_Z (fst p)) counts)).

(** The years of the decade that starts at [d]. *)
Definition in_decade (d y : Z) : bool := ((d <=? y) && (y <? d + 10))%Z.

(** Line 149, from the release years of the catalog. *)
Definition decade_counts (release_years : list Z) : list (Z * nat) :=
  sort_index (value_counts (map release_decade release_years)).

(** The seeds the button makes of the names entered. *)
Definition seeds_of (input_song_names : list string) : list string :=
  filter (fun song => negb (String.eqb song "")) (map str_lower input_song_names).

(** [sep] occurs in [s]. *)
Fixpoint occurs (sep s : string) : bool :=
  String.prefix sep s
  || match s with
     | EmptyString => false
     | String _ s' => occurs sep s'
     end.

(** A name that survives the prompt: it is not empty, " by " does not occur
    in it (nor at its end, where the label adds a space), it neither starts
    nor ends with a space character, and it holds no newline. *)
Definition survives_prompt (nm : string) : bool :=
  negb (String.eqb nm "")
  && negb (occurs " by " (nm ++ " ")%string)
  && String.eqb (strip nm) nm
  && negb (existsb (Ascii.eqb newline) (list_ascii_of_string nm)).

(** ** Notions the statements use *)

(** The lookup as the specification words it: the lowercased input against
    the lowercased stored names, first match first. *)
Definition lookup_spec (input : string) (data : DataFrame) : option Series :=
  hd_error (select_mask (fun r => String.eqb (str_lower (name r)) (str_lower input)) data).

(** The number of numeric columns, 15. *)
Definition width : nat := length number_cols.

Definition rectangular (n : nat) (X : list vec) : Prop :=
  Forall (fun v => length v = n) X.

(** What a successful fit leaves behind: every vector of the fitted state
    is as wide as [number_cols], and the scaled matrix has a row per catalog
    row. *)
Record fitted (data : DataFrame) (G : Globals) : Prop := {
  fitted_nonempty : data <> [];
  fitted_data : Forall (fun r => length (nums r) = width) data;
  fitted_mm_n : MinMaxScaler.n_features_in_ (min_max_scaler G) = width;
  fitted_mm_scale : length (MinMaxScaler.scale_ (min_max_scaler G)) = width;
  fitted_mm_min : length (MinMaxScaler.min_ (min_max_scaler G)) = width;
  fitted_ss_n : StandardScaler.n_features_in_ (standard_scaler G) = width;
  fitted_ss_mean : length (StandardScaler.mean_ (standard_scaler G)) = width;
  fitted_ss_scale : length (StandardScaler.scale_ (standard_scaler G)) = width;
  fitted_rows : length (scaled_normalized_data G) = length data;
  fitted_rect : rectangular width (scaled_normalized_data G)
}.

(** Every seed name is found by the lookup. *)
Definition resolvable (data : DataFrame) (seed_songs : list string) : Prop :=
  forall song, In song seed_songs -> get_song_data song data <> Ok None.

(** The catalog stores the seed songs under the names the seeds give:
    a row whose name is a seed name up to the case of its letters bears
    that seed name letter for letter. *)
Definition stored_as_given (data : DataFrame) (seed_songs : list string) : Prop :=
  forall r song, In r data -> In song seed_songs ->
                 str_lower (name r) = str_lower song -> name r = song.

(** The names of the rows selected so far. *)
Definition names (rec_songs : list Series) : list string :=
  map (fun s => name (values s)) rec_songs.

(** The loop over rows already fetched: what [select_loop] computes once
    every [data.iloc[i]] has succeeded. *)
Fixpoint take_loop (seed_songs : list string) (n_recommendations : Z)
    (cands rec_songs : list Series) : list Series :=
  match cands with
  | [] => rec_songs
  | row :: cands' =>
      if negb (str_in (name (values row)) seed_songs)
         && negb (str_in (name (values row)) (names rec_songs))
      then
        if (Z.of_nat (length (rec_songs ++ [row])) =? n_recommendations)%Z
        then rec_songs ++ [row]
        else take_loop seed_songs n_recommendations cands' (rec_songs ++ [row])
      else take_loop seed_songs n_recommendations cands' rec_songs
  end.

(** The names the catalog can still offer: those that are not seed names,
    each once. *)
Definition available (data : DataFrame) (seed_songs : list string) : list string :=
  nodup string_dec (filter (fun nm => negb (str_in nm seed_songs)) (map name data)).

(** The distance of a fetched row to the center [c]: the row is looked up
    in the scaled matrix by its label. *)
Definition distance_to (sqrt : Q -> Q) (G : Globals) (c : vec) (s : Series) : Q :=
  euclidean sqrt c (nth (label s) (scaled_normalized_data G) []).

(** Column [j] of a matrix. *)
Definition column (j : nat) (X : list vec) : list Q := map (fun v => nth j v 0) X.

(** ** A small catalog to run the engine on *)

Definition track (nm art : string) (valence yr : Q) : Row :=
  {| name := nm; artists := art;
     nums := [valence; yr; 0; 0; 0; 0; 0; 0; 0; 0; 0; 0; 0; 0; 0] |}.

Definition demo : DataFrame :=
  [track "yesterday" "The Beatles" (3 # 10) 1965;
   track "Hello" "Adele" (9 # 10) 2015;
   track "hello" "Lionel Richie" (6 # 10) 1984;
   track "imagine" "John Lennon" (4 # 10) 1971].

(** The rows the seeds "hello" and "imagine" resolve to. *)
Definition demo_resolved : list Series :=
  [{| label := 1; values := track "Hello" "Adele" (9 # 10) 2015 |};
   {| label := 3; values := track "imagine" "John Lennon" (4 # 10) 1971 |}].

Definition solo : DataFrame := [track "yesterday" "The Beatles" (3 # 10) 1965].

Definition no_globals : Globals :=
  {| min_max_scaler := MinMaxScaler.Build_t 0 [] [] [] [] [];
     standard_scaler := StandardScaler.Build_t 0 [] [] [];
     scaled_normalized_data := [] |}.

Definition fitted_state (data : DataFrame) : Globals :=
  match startup Qsqrt data with
  | Ok G => G
  | Raise _ => no_globals
  end.

Definition demo_globals : Globals := Eval vm_compute in fitted_state demo.
Definition solo_globals : Globals := Eval vm_compute in fitted_state solo.

(** The program on the small catalog, with [printed] on its output. *)
Definition demo_world (printed : list string) : World :=
  {| w_state := {| st_data := demo; st_globals := demo_globals |}; stdout := printed |}.

(** * Properties *)

(** ** Catalog lookup *)

Lemma label_rows_from (df : DataFrame) (i : nat) (p : Row -> bool) :
  match hd_error (filter (fun s => p (values s)) (rows_from i df)) with
  | Some s =>
      exists l1 l2, df = l1 ++ values s :: l2 /\ label s = (i + length l1)%nat /\
                    p (values s) = true /\ forall r, In r l1 -> p r = false
  | None => forall r, In r df -> p r = false
  end.
Proof.
  revert i. induction df as [| r df IH]; intros i; simpl.
  - intros r [].
  - destruct (p r) eqn:Hp; simpl.
    + exists [], df. simpl. repeat split; auto. intros r0 [].
    + specialize (IH (S i)).
      destruct (hd_error (filter (fun s => p (values s)) (rows_from (S i) df))) as [s |].
      * destruct IH as (l1 & l2 & -> & Hl & Hs & Hbefore).
        exists (r :: l1), l2. simpl. repeat split; auto.
        -- rewrite Hl. lia.
        -- intros r0 [<- | Hin]; auto.
      * intros r0 [<- | Hin]; auto.
Qed.

Lemma get_song_data_hd (name0 : string) (data : DataFrame) :
  get_song_data name0 data =
  Ok (hd_error (select_mask (fun r => String.eqb (str_lower (name r)) name0) data)).
Proof.
  unfold get_song_data, iloc_sel.
  destruct (select_mask _ data) as [| s sel]; reflexivity.
Qed.

(** ** The error monad *)

Lemma bind_Ok {A B : Type} (m : result A) (k : A -> result B) (b : B) :
  bind m k = Ok b -> exists a, m = Ok a /\ k a = Ok b.
Proof. destruct m as [a | e]; simpl; [eauto | discriminate]. Qed.

Tactic Notation "inv_bind" hyp(H) "as" ident(a) ident(Ha) :=
  apply bind_Ok in H; destruct H as (a & Ha & H).

Tactic Notation "inv_bind" hyp(H) :=
  let a := fresh "a" in
  let Ha := fresh "Ha" in
  inv_bind H as a Ha.

(** ** Shapes *)

Lemma check_n_features_Ok (n : nat) (X Y : list vec) :
  check_n_features n X = Ok Y <-> Y = X /\ rectangular n X.
Proof.
  unfold check_n_features, rectangular.
  match goal with |- context [forallb ?f X] => destruct (forallb f X) eqn:Hall end.
  - rewrite forallb_forall in Hall. split.
    + intros [= <-]. split; auto. apply Forall_forall.
      intros v Hv. apply Nat.eqb_eq. auto.
    + intros [-> _]. reflexivity.
  - split; [discriminate |]. intros [_ HX]. exfalso.
    apply not_true_iff_false in Hall. apply Hall.
    apply forallb_forall. intros v Hv. apply Nat.eqb_eq.
    rewrite Forall_forall in HX. auto.
Qed.

Lemma check_n_features_rect (n : nat) (X : list vec) :
  rectangular n X -> check_n_features n X = Ok X.
Proof. intros HX. apply check_n_features_Ok. auto. Qed.

Lemma mapM_number_cols (data : DataFrame) (X : list vec) :
  mapM getitem_number_cols data = Ok X <->
  X = map nums data /\ Forall (fun r => length (nums r) = width) data.
Proof.
  revert X. induction data as [| r data IH]; intros X; simpl.
  - split.
    + intros [= <-]. auto.
    + intros [-> _]. reflexivity.
  - unfold getitem_number_cols at 1. fold width.
    destruct (Nat.eqb_spec (length (nums r)) width) as [Hr | Hr]; simpl.
    + destruct (mapM getitem_number_cols data) as [X' | e]; simpl.
      * destruct (IH X') as [IH1 _]. destruct (IH1 eq_refl) as [-> Hall].
        split.
        -- intros [= <-]. auto.
        -- intros [-> _]. reflexivity.
      * split; [discriminate |]. intros [_ Hall].
        apply Forall_inv_tail in Hall.
        destruct (IH (map nums data)) as [_ IH2]. now specialize (IH2 (conj eq_refl Hall)).
    + split; [discriminate |]. intros [_ Hall]. apply Forall_inv in Hall. contradiction.
Qed.

Lemma length_map2 {A B C : Type} (f : A -> B -> C) (u : list A) (v : list B) :
  length (map2 f u v) = Nat.min (length u) (length v).
Proof.
  revert v. induction u as [| a u IH]; intros [| b v]; simpl; auto.
Qed.

Lemma length_fold_map2 (f : Q -> Q -> Q) (rest : list vec) (r : vec) :
  rectangular (length r) rest -> length (fold_left (map2 f) rest r) = length r.
Proof.
  revert r. induction rest as [| x rest IH]; intros r Hrest; simpl; auto.
  inversion Hrest as [| ? ? Hx Hrest']; subst.
  rewrite IH; rewrite length_map2, Hx, Nat.min_id; auto.
Qed.

Lemma length_col_mean (r : vec) (rest : list vec) :
  rectangular (length r) rest -> length (col_mean r rest) = length r.
Proof.
  intros H. unfold col_mean, col_sum. rewrite length_map. now apply length_fold_map2.
Qed.

Lemma rectangular_map (n : nat) (f : vec -> vec) (X : list vec) :
  (forall v, length v = n -> length (f v) = n) ->
  rectangular n X -> rectangular n (map f X).
Proof.
  intros Hf HX. unfold rectangular in *. rewrite Forall_forall in *.
  intros v Hv. apply in_map_iff in Hv. destruct Hv as (u & <- & Hu). auto.
Qed.

Lemma length_mm_transform_row (sc : MinMaxScaler.t) (n : nat) (x : vec) :
  length (MinMaxScaler.scale_ sc) = n -> length (MinMaxScaler.min_ sc) = n ->
  length x = n -> length (MinMaxScaler.transform_row sc x) = n.
Proof.
  intros Hs Hm Hx. unfold MinMaxScaler.transform_row.
  rewrite !length_map2, Hs, Hm, Hx, !Nat.min_id. reflexivity.
Qed.

Lemma length_ss_transform_row (sc : StandardScaler.t) (n : nat) (x : vec) :
  length (StandardScaler.mean_ sc) = n -> length (StandardScaler.scale_ sc) = n ->
  length x = n -> length (StandardScaler.transform_row sc x) = n.
Proof.
  intros Hs Hm Hx. unfold StandardScaler.transform_row.
  rewrite !length_map2, Hs, Hm, Hx, !Nat.min_id. reflexivity.
Qed.

Lemma mm_fit_Ok (X : list vec) (sc : MinMaxScaler.t) :
  MinMaxScaler.fit X = Ok sc ->
  exists r rest, X = r :: rest /\ rectangular (length r) rest /\
    MinMaxScaler.n_features_in_ sc = length r /\
    MinMaxScaler.data_min_ sc = col_min r rest /\
    MinMaxScaler.data_max_ sc = col_max r rest /\
    MinMaxScaler.data_range_ sc = map2 Qminus (col_max r rest) (col_min r rest) /\
    MinMaxScaler.scale_ sc
    = map (fun d => (1 - 0) / d) (handle_zeros_in_scale (MinMaxScaler.data_range_ sc)) /\
    MinMaxScaler.min_ sc
    = map2 (fun m s => 0 - m * s) (MinMaxScaler.data_min_ sc) (MinMaxScaler.scale_ sc).
Proof.
  destruct X as [| r rest]; simpl; [discriminate |].
  intros H. inv_bind H. apply check_n_features_Ok in Ha. destruct Ha as [_ Hrect].
  injection H as <-. exists r, rest. simpl. repeat split; auto.
Qed.

Lemma ss_fit_Ok (sqrt : Q -> Q) (X : list vec) (sc : StandardScaler.t) :
  StandardScaler.fit sqrt X = Ok sc ->
  exists r rest, X = r :: rest /\ rectangular (length r) rest /\
    StandardScaler.n_features_in_ sc = length r /\
    StandardScaler.mean_ sc = col_mean r rest /\
    StandardScaler.var_ sc
    = col_mean (StandardScaler.sq_dev (col_mean r rest) r)
               (map (StandardScaler.sq_dev (col_mean r rest)) rest) /\
    StandardScaler.scale_ sc = handle_zeros_in_scale (map sqrt (StandardScaler.var_ sc)).
Proof.
  destruct X as [| r rest]; simpl; [discriminate |].
  intros H. inv_bind H. apply check_n_features_Ok in Ha. destruct Ha as [_ Hrect].
  injection H as <-. exists r, rest. simpl. repeat split; auto.
Qed.

Lemma length_handle_zeros (scale : vec) :
  length (handle_zeros_in_scale scale) = length scale.
Proof. unfold handle_zeros_in_scale. apply length_map. Qed.

Lemma mm_fit_widths (X : list vec) (sc : MinMaxScaler.t) :
  MinMaxScaler.fit X = Ok sc ->
  length (MinMaxScaler.scale_ sc) = MinMaxScaler.n_features_in_ sc /\
  length (MinMaxScaler.min_ sc) = MinMaxScaler.n_features_in_ sc.
Proof.
  intros H. apply mm_fit_Ok in H.
  destruct H as (r & rest & _ & Hrect & Hn & Hmin & Hmax & Hrange & Hscale & Hmin_).
  assert (length (MinMaxScaler.scale_ sc) = length r) as Hs.
  { rewrite Hscale, length_map, length_handle_zeros, Hrange, length_map2.
    unfold col_max, col_min. rewrite !length_fold_map2 by assumption. apply Nat.min_id. }
  split; [congruence |].
  rewrite Hmin_, length_map2, Hs, Hmin. unfold col_min.
  rewrite length_fold_map2 by assumption. rewrite Nat.min_id. congruence.
Qed.

Lemma rectangular_sq_dev (mean : vec) (n : nat) (X : list vec) :
  length mean = n -> rectangular n X -> rectangular n (map (StandardScaler.sq_dev mean) X).
Proof.
  intros Hm. apply rectangular_map. intros v Hv.
  unfold StandardScaler.sq_dev. rewrite length_map2, Hv, Hm. apply Nat.min_id.
Qed.

Lemma ss_fit_widths (sqrt : Q -> Q) (X : list vec) (sc : StandardScaler.t) :
  StandardScaler.fit sqrt X = Ok sc ->
  length (StandardScaler.mean_ sc) = StandardScaler.n_features_in_ sc /\
  length (StandardScaler.scale_ sc) = StandardScaler.n_features_in_ sc.
Proof.
  intros H. apply ss_fit_Ok in H.
  destruct H as (r & rest & _ & Hrect & Hn & Hmean & Hvar & Hscale).
  assert (length (col_mean r rest) = length r) as Hm by now apply length_col_mean.
  split; [congruence |].
  rewrite Hscale, length_handle_zeros, length_map, Hvar, length_col_mean.
  - unfold StandardScaler.sq_dev. rewrite length_map2, Hm, Nat.min_id. congruence.
  - unfold StandardScaler.sq_dev at 1. rewrite length_map2, Hm, Nat.min_id.
    now apply rectangular_sq_dev.
Qed.

(** The steps of [startup], read back from its result. *)
Lemma startup_steps (sqrt : Q -> Q) (data : DataFrame) (G : Globals) :
  startup sqrt data = Ok G ->
  Forall (fun r => length (nums r) = width) data /\
  MinMaxScaler.fit (map nums data) = Ok (min_max_scaler G) /\
  StandardScaler.fit sqrt
    (map (MinMaxScaler.transform_row (min_max_scaler G)) (map nums data))
  = Ok (standard_scaler G) /\
  scaled_normalized_data G
  = map (StandardScaler.transform_row (standard_scaler G))
        (map (MinMaxScaler.transform_row (min_max_scaler G)) (map nums data)).
Proof.
  unfold startup. intros H.
  inv_bind H as X HX. apply mapM_number_cols in HX. destruct HX as [-> Hdata].
  inv_bind H as fitted_mm Hfit. destruct fitted_mm as [mm normalized].
  unfold MinMaxScaler.fit_transform in Hfit.
  inv_bind Hfit as mm' Hmm.
  inv_bind Hfit as normalized' Hnorm. injection Hfit as -> ->.
  unfold MinMaxScaler.transform in Hnorm.
  inv_bind Hnorm as X1 HX1. apply check_n_features_Ok in HX1. destruct HX1 as [-> _].
  injection Hnorm as <-.
  inv_bind H as fitted_ss Hfit. destruct fitted_ss as [ss scaled].
  unfold StandardScaler.fit_transform in Hfit.
  inv_bind Hfit as ss' Hss.
  inv_bind Hfit as scaled' Hscaled. injection Hfit as -> ->.
  unfold StandardScaler.transform in Hscaled.
  inv_bind Hscaled as X2 HX2. apply check_n_features_Ok in HX2. destruct HX2 as [-> _].
  injection Hscaled as <-. injection H as <-. simpl. auto.
Qed.

Lemma rectangular_nums (data : DataFrame) :
  Forall (fun r => length (nums r) = width) data -> rectangular width (map nums data).
Proof.
  intros H. unfold rectangular. rewrite Forall_forall in *.
  intros v Hv. apply in_map_iff in Hv. destruct Hv as (r & <- & Hr). auto.
Qed.

Lemma startup_fitted (sqrt : Q -> Q) (data : DataFrame) (G : Globals) :
  startup sqrt data = Ok G -> fitted data G.
Proof.
  intros H. apply startup_steps in H. destruct H as (Hdata & Hmm & Hss & Hscaled).
  pose proof (rectangular_nums data Hdata) as Hrect.
  pose proof (mm_fit_widths _ _ Hmm) as [Hms Hmmin].
  pose proof (ss_fit_widths _ _ _ Hss) as [Hsm Hssc].
  apply mm_fit_Ok in Hmm. destruct Hmm as (r & rest & HX & _ & Hn & _).
  assert (length r = width) as Hr.
  { rewrite HX in Hrect. now apply Forall_inv in Hrect. }
  rewrite Hn, Hr in Hms, Hmmin.
  assert (rectangular width
            (map (MinMaxScaler.transform_row (min_max_scaler G)) (map nums data))) as Hnorm.
  { apply rectangular_map; auto. intros v Hv. now apply length_mm_transform_row. }
  apply ss_fit_Ok in Hss. destruct Hss as (r' & rest' & HX' & _ & Hn' & _).
  assert (length r' = width) as Hr'.
  { rewrite HX' in Hnorm. now apply Forall_inv in Hnorm. }
  rewrite Hn', Hr' in Hsm, Hssc.
  constructor; auto; try congruence.
  - intros ->. discriminate.
  - rewrite Hscaled, !length_map. reflexivity.
  - rewrite Hscaled. apply rectangular_map; auto.
    intros v Hv. now apply length_ss_transform_row.
Qed.

(** Fitting succeeds on every catalog that has a row and all of
    [number_cols]. *)
Lemma startup_Ok (sqrt : Q -> Q) (data : DataFrame) :
  data <> [] -> Forall (fun r => length (nums r) = width) data ->
  exists G, startup sqrt data = Ok G.
Proof.
  intros Hne Hdata. unfold startup.
  destruct (mapM_number_cols data (map nums data)) as [_ HX].
  rewrite (HX (conj eq_refl Hdata)). cbn [bind].
  pose proof (rectangular_nums data Hdata) as Hrect.
  destruct data as [| r0 data0]; [contradiction |].
  set (X := map nums (r0 :: data0)) in *.
  assert (exists mm, MinMaxScaler.fit X = Ok mm) as [mm Hmm].
  { subst X. simpl map. unfold MinMaxScaler.fit.
    inversion Hrect as [| ? ? Hr Hrest]; subst.
    rewrite check_n_features_rect by (now rewrite Hr). simpl. eauto. }
  unfold MinMaxScaler.fit_transform. rewrite Hmm. cbn [bind].
  pose proof (mm_fit_widths _ _ Hmm) as [Hms Hmmin].
  assert (MinMaxScaler.n_features_in_ mm = width) as Hn.
  { apply mm_fit_Ok in Hmm. destruct Hmm as (r & rest & HX' & _ & Hn & _).
    rewrite Hn. rewrite HX' in Hrect. now apply Forall_inv in Hrect. }
  unfold MinMaxScaler.transform. rewrite Hn.
  rewrite check_n_features_rect by assumption. cbn [bind].
  assert (rectangular width (map (MinMaxScaler.transform_row mm) X)) as Hnorm.
  { apply rectangular_map; auto. intros v Hv.
    apply length_mm_transform_row; congruence. }
  assert (exists ss, StandardScaler.fit sqrt (map (MinMaxScaler.transform_row mm) X) = Ok ss)
    as [ss Hss].
  { subst X. simpl map in *. unfold StandardScaler.fit.
    inversion Hnorm as [| ? ? Hr Hrest]; subst.
    rewrite check_n_features_rect by (now rewrite Hr). simpl. eauto. }
  unfold StandardScaler.fit_transform. rewrite Hss. cbn [bind].
  assert (StandardScaler.n_features_in_ ss = width) as Hn'.
  { apply ss_fit_Ok in Hss. destruct Hss as (r & rest & HX' & _ & Hn' & _).
    rewrite Hn'. rewrite HX' in Hnorm. now apply Forall_inv in Hnorm. }
  unfold StandardScaler.transform. rewrite Hn'.
  rewrite check_n_features_rect by assumption. cbn [bind]. eauto.
Qed.

(** ** Resolving and aggregating the seeds *)

Lemma get_song_data_total (name0 : string) (data : DataFrame) :
  exists o, get_song_data name0 data = Ok o.
Proof. rewrite get_song_data_hd. eauto. Qed.

Lemma get_song_data_nth (name0 : string) (data : DataFrame) (s : Series) :
  get_song_data name0 data = Ok (Some s) -> nth_error data (label s) = Some (values s).
Proof.
  rewrite get_song_data_hd. unfold select_mask, rows.
  pose proof (label_rows_from data 0 (fun r => String.eqb (str_lower (name r)) name0)) as H.
  intros [= Hhd]. cbv beta in H. rewrite Hhd in H.
  destruct H as (l1 & l2 & -> & Hl & _). rewrite Hl. simpl.
  rewrite nth_error_app2, Nat.sub_diag by lia. reflexivity.
Qed.

Lemma resolvable_Forall2 (data : DataFrame) (seed_songs : list string) :
  resolvable data seed_songs ->
  exists resolved,
    Forall2 (fun song s => get_song_data song data = Ok (Some s)) seed_songs resolved.
Proof.
  induction seed_songs as [| song seeds IH]; intros Hres.
  - exists []. constructor.
  - destruct IH as [resolved IH].
    { intros s Hs. apply Hres. now right. }
    destruct (get_song_data_total song data) as [[s |] Hs].
    + exists (s :: resolved). now constructor.
    + exfalso. apply (Hres song); [now left | assumption].
Qed.

Lemma collect_vectors_resolved (data : DataFrame) (seed_songs : list string)
    (resolved : list Series) (song_vectors : list vec) :
  Forall (fun r => length (nums r) = width) data ->
  Forall2 (fun song s => get_song_data song data = Ok (Some s)) seed_songs resolved ->
  collect_vectors seed_songs data song_vectors
  = Ok (Some (song_vectors ++ map (fun s => nums (values s)) resolved)).
Proof.
  intros Hdata Hres. revert song_vectors.
  induction Hres as [| song s seeds resolved Hs _ IH]; intros song_vectors; simpl.
  - now rewrite app_nil_r.
  - rewrite Hs. cbn [bind].
    assert (length (nums (values s)) = width) as Hw.
    { apply get_song_data_nth, nth_error_In in Hs.
      rewrite Forall_forall in Hdata. auto. }
    unfold getitem_number_cols. fold width.
    rewrite (proj2 (Nat.eqb_eq _ _) Hw). cbn [bind].
    rewrite IH, <- app_assoc. reflexivity.
Qed.

Lemma collect_vectors_unresolved (data : DataFrame) (seed_songs : list string)
    (song_vectors : list vec) :
  Forall (fun r => length (nums r) = width) data ->
  (exists song, In song seed_songs /\ get_song_data song data = Ok None) ->
  collect_vectors seed_songs data song_vectors = Ok None.
Proof.
  intros Hdata. revert song_vectors.
  induction seed_songs as [| song seeds IH]; intros song_vectors (bad & Hin & Hbad).
  - destruct Hin.
  - simpl. destruct (get_song_data_total song data) as [[s |] Hs]; rewrite Hs; cbn [bind].
    + assert (length (nums (values s)) = width) as Hw.
      { apply get_song_data_nth, nth_error_In in Hs.
        rewrite Forall_forall in Hdata. auto. }
      unfold getitem_number_cols. fold width.
      rewrite (proj2 (Nat.eqb_eq _ _) Hw). cbn [bind].
      apply IH. exists bad. split; auto.
      destruct Hin as [<- | Hin]; [congruence | assumption].
    + reflexivity.
Qed.

Lemma resolved_rectangular (data : DataFrame) (seed_songs : list string)
    (resolved : list Series) :
  Forall (fun r => length (nums r) = width) data ->
  Forall2 (fun song s => get_song_data song data = Ok (Some s)) seed_songs resolved ->
  rectangular width (map (fun s => nums (values s)) resolved).
Proof.
  intros Hdata Hres. unfold rectangular.
  induction Hres as [| song s seeds resolved Hs _ IH]; simpl; constructor; auto.
  apply get_song_data_nth, nth_error_In in Hs. rewrite Forall_forall in Hdata. auto.
Qed.

(** The song center of a resolvable, non-empty request. *)
Lemma get_mean_vector_resolved (data : DataFrame) (seed_songs : list string)
    (resolved : list Series) :
  Forall (fun r => length (nums r) = width) data ->
  seed_songs <> [] ->
  Forall2 (fun song s => get_song_data song data = Ok (Some s)) seed_songs resolved ->
  exists r rest,
    map (fun s => nums (values s)) resolved = r :: rest /\
    rectangular width (r :: rest) /\
    get_mean_vector seed_songs data = Ok (Some (array1 (col_mean r rest))).
Proof.
  intros Hdata Hne Hres.
  pose proof (resolved_rectangular _ _ _ Hdata Hres) as Hrect.
  unfold get_mean_vector.
  rewrite (collect_vectors_resolved _ _ _ [] Hdata Hres). cbn [bind app].
  destruct Hres as [| song s seeds resolved Hs Hres]; [contradiction |].
  simpl in *. eauto.
Qed.

(** ** Normalizing and ranking *)

Lemma scale_center_Ok (data : DataFrame) (G : Globals) (m : vec) :
  fitted data G -> length m = width ->
  scale_center G (array1 m)
  = Ok [StandardScaler.transform_row (standard_scaler G)
          (MinMaxScaler.transform_row (min_max_scaler G) m)].
Proof.
  intros HG Hm. unfold scale_center. cbn [check_array mapM bind].
  unfold MinMaxScaler.transform. rewrite (fitted_mm_n _ _ HG).
  rewrite check_n_features_rect by (constructor; auto; constructor).
  cbn [bind map].
  unfold StandardScaler.transform. rewrite (fitted_ss_n _ _ HG).
  rewrite check_n_features_rect; [reflexivity |].
  constructor; [| constructor].
  apply length_mm_transform_row; auto; apply HG.
Qed.

Lemma rank_Ok (sqrt : Q -> Q) (data : DataFrame) (G : Globals) (c : vec) :
  fitted data G -> length c = width ->
  rank sqrt G [c] = Ok (np_argsort (map (euclidean sqrt c) (scaled_normalized_data G))).
Proof.
  intros HG Hc. unfold rank, cdist.
  assert (n_cols (scaled_normalized_data G) = width) as Hcols.
  { pose proof (fitted_rows _ _ HG) as Hlen. pose proof (fitted_rect _ _ HG) as Hrect.
    pose proof (fitted_nonempty _ _ HG) as Hne.
    destruct (scaled_normalized_data G) as [| v X].
    - destruct data; [contradiction | discriminate].
    - simpl. now apply Forall_inv in Hrect. }
  simpl n_cols at 1. rewrite Hc, Hcols, Nat.eqb_refl. reflexivity.
Qed.

Lemma in_enumerate (d : vec) (a i : nat) (x : Q) :
  In (i, x) (combine (seq a (length d)) d) -> (a <= i)%nat /\ nth_error d (i - a) = Some x.
Proof.
  revert a. induction d as [| y d IH]; intros a; simpl.
  - intros [].
  - intros [[= <- <-] | Hin].
    + rewrite Nat.sub_diag. auto.
    + apply IH in Hin. destruct Hin as [Hle Hnth]. split; [lia |].
      replace (i - a)%nat with (S (i - S a)) by lia. assumption.
Qed.

Lemma map_fst_enumerate (d : vec) (a : nat) :
  map fst (combine (seq a (length d)) d) = seq a (length d).
Proof.
  revert a. induction d as [| y d IH]; intros a; simpl; [| rewrite IH]; reflexivity.
Qed.

Lemma np_argsort_perm (d : vec) : Permutation (seq 0 (length d)) (np_argsort d).
Proof.
  unfold np_argsort, enumerate. rewrite <- (map_fst_enumerate d 0) at 1.
  apply Permutation_map, DistSort.Permuted_sort.
Qed.

Lemma np_argsort_in_range (d : vec) : Forall (fun i => (i < length d)%nat) (np_argsort d).
Proof.
  apply Forall_forall. intros i Hi.
  apply (Permutation_in _ (Permutation_sym (np_argsort_perm d))) in Hi.
  apply in_seq in Hi. lia.
Qed.

Lemma StronglySorted_map {A B : Type} (R : A -> A -> Prop) (S : B -> B -> Prop)
    (f : A -> B) (l : list A) :
  (forall x y, R x y -> S (f x) (f y)) ->
  StronglySorted R l -> StronglySorted S (map f l).
Proof.
  intros Hf. induction 1 as [| x l Hl IH Hx]; simpl; constructor; auto.
  rewrite Forall_forall in *. intros y Hy.
  apply in_map_iff in Hy. destruct Hy as (z & <- & Hz). auto.
Qed.

(** The indices come out by non-decreasing key. *)
Lemma np_argsort_sorted (d : vec) (dflt : Q) :
  StronglySorted Qle (map (fun i => nth i d dflt) (np_argsort d)).
Proof.
  unfold np_argsort. rewrite map_map.
  rewrite (map_ext_in _ snd).
  - apply StronglySorted_map with (R := fun x y => is_true (DistOrder.leb x y)).
    + intros x y H. now apply Qle_bool_iff.
    + apply DistSort.StronglySorted_sort.
      intros x y z Hxy Hyz. unfold is_true, DistOrder.leb in *.
      rewrite Qle_bool_iff in *. eapply Qle_trans; eauto.
  - intros [i x] Hin. simpl.
    apply (Permutation_in _ (Permutation_sym (DistSort.Permuted_sort (enumerate d)))) in Hin.
    apply in_enumerate in Hin. destruct Hin as [_ Hnth].
    rewrite Nat.sub_0_r in Hnth. now apply nth_error_nth.
Qed.

(** ** The selection loop *)

Lemma str_in_In (x : string) (xs : list string) : str_in x xs = true <-> In x xs.
Proof.
  unfold str_in. rewrite existsb_exists. split.
  - intros (y & Hy & Heq). apply String.eqb_eq in Heq. now subst.
  - intros Hx. exists x. split; auto. apply String.eqb_refl.
Qed.

Lemma str_in_not_In (x : string) (xs : list string) : str_in x xs = false <-> ~ In x xs.
Proof.
  rewrite <- str_in_In. destruct (str_in x xs); split; congruence.
Qed.

Lemma iloc_Ok (data : DataFrame) (i : nat) (s : Series) :
  iloc data i = Ok s <-> label s = i /\ nth_error data i = Some (values s).
Proof.
  unfold iloc, iloc_sel, rows.
  assert (forall a df, nth_error (rows_from a df) i
                       = option_map (fun r => {| label := a + i; values := r |})
                                    (nth_error df i)) as Hnth.
  { intros a df. revert a i. induction df as [| r df IH]; intros a [| i]; simpl; auto.
    - now rewrite Nat.add_0_r.
    - rewrite IH. now rewrite Nat.add_succ_r. }
  rewrite Hnth. destruct (nth_error data i) as [r |]; simpl.
  - split.
    + intros [= <-]. auto.
    + destruct s as [l v]. simpl. intros [-> [= ->]]. reflexivity.
  - split; [discriminate | intros [_ H]; discriminate].
Qed.

Lemma iloc_in_range (data : DataFrame) (i : nat) :
  (i < length data)%nat -> exists s, iloc data i = Ok s.
Proof.
  intros Hi. destruct (nth_error data i) as [r |] eqn:Hr.
  - exists {| label := i; values := r |}. apply iloc_Ok. auto.
  - apply nth_error_None in Hr. lia.
Qed.

Lemma select_loop_take (seed_songs : list string) (data : DataFrame) (n : Z)
    (index : list nat) (rec_songs : list Series) :
  Forall (fun i => (i < length data)%nat) index ->
  exists cands,
    Forall2 (fun i s => iloc data i = Ok s) index cands /\
    select_loop seed_songs data n index rec_songs
    = Ok (take_loop seed_songs n cands rec_songs).
Proof.
  intros Hrange. revert rec_songs.
  induction Hrange as [| i index Hi _ IH]; intros rec_songs.
  - exists []. split; [constructor | reflexivity].
  - destruct (iloc_in_range data i Hi) as [s Hs].
    destruct (IH rec_songs) as (cands1 & Hc1 & He1).
    destruct (IH (rec_songs ++ [s])) as (cands2 & Hc2 & He2).
    assert (cands1 = cands2) as <-.
    { clear - Hc1 Hc2. revert cands2 Hc2.
      induction Hc1 as [| j x js xs Hx _ IHc]; intros cands2 Hc2; inversion Hc2; subst.
      - reflexivity.
      - f_equal; [congruence | auto]. }
    exists (s :: cands1). split; [now constructor |].
    simpl. rewrite Hs. cbn [bind]. fold (names rec_songs).
    destruct (negb _ && negb _); [| assumption].
    destruct (Z.of_nat _ =? n)%Z; [reflexivity | assumption].
Qed.

Section TakeLoop.

Variable seed_songs : list string.
Variable n : Z.

Lemma take_loop_extends (cands rec_songs : list Series) :
  exists picked,
    take_loop seed_songs n cands rec_songs = rec_songs ++ picked /\
    Forall (fun s => In s cands /\ ~ In (name (values s)) seed_songs) picked.
Proof.
  revert rec_songs. induction cands as [| row cands IH]; intros rec_songs; simpl.
  - exists []. split; [now rewrite app_nil_r | constructor].
  - destruct (str_in (name (values row)) seed_songs) eqn:Hseed; simpl.
    + destruct (IH rec_songs) as (picked & -> & Hp). exists picked. split; auto.
      eapply Forall_impl; [| exact Hp]. simpl. intros s [Hin Hs]. auto.
    + apply str_in_not_In in Hseed.
      assert (forall picked, Forall (fun s => In s cands /\ ~ In (name (values s)) seed_songs)
                                    picked ->
                             Forall (fun s => In s (row :: cands)
                                              /\ ~ In (name (values s)) seed_songs)
                                    (row :: picked)) as Hstep.
      { intros picked Hp. constructor; [split; simpl; auto |].
        eapply Forall_impl; [| exact Hp]. simpl. intros s [Hin Hs]. auto. }
      destruct (str_in (name (values row)) (names rec_songs)); simpl.
      * destruct (IH rec_songs) as (picked & -> & Hp). exists picked. split; auto.
        eapply Forall_impl; [| exact Hp]. simpl. intros s [Hin Hs]. auto.
      * destruct (Z.of_nat _ =? n)%Z.
        -- exists [row]. split; auto.
        -- destruct (IH (rec_songs ++ [row])) as (picked & -> & Hp).
           exists (row :: picked). rewrite <- app_assoc. split; auto.
Qed.

(** No name is appended twice. *)
Lemma take_loop_NoDup (cands rec_songs : list Series) :
  NoDup (names rec_songs) ->
  NoDup (names (take_loop seed_songs n cands rec_songs)).
Proof.
  revert rec_songs. induction cands as [| row cands IH]; intros rec_songs Hnd; simpl; auto.
  destruct (str_in (name (values row)) seed_songs); simpl; auto.
  destruct (str_in (name (values row)) (names rec_songs)) eqn:Hdup; simpl; auto.
  apply str_in_not_In in Hdup.
  assert (NoDup (names (rec_songs ++ [row]))) as Hnd'.
  { unfold names in *. rewrite map_app. simpl.
    apply NoDup_app; auto.
    - constructor; [intros [] | constructor].
    - intros x Hx [<- | []]. contradiction. }
  destruct (Z.of_nat _ =? n)%Z; auto.
Qed.

(** The count is not exceeded once it is positive. *)
Lemma take_loop_length (cands rec_songs : list Series) :
  (Z.of_nat (length rec_songs) < n)%Z ->
  (Z.of_nat (length (take_loop seed_songs n cands rec_songs)) <= n)%Z.
Proof.
  revert rec_songs. induction cands as [| row cands IH]; intros rec_songs Hlt; simpl.
  - lia.
  - destruct (negb _ && negb _); auto.
    destruct (Z.eqb_spec (Z.of_nat (length (rec_songs ++ [row]))) n) as [He | Hne].
    + lia.
    + apply IH. rewrite length_app in *. simpl in *. lia.
Qed.

(** When the count was not reached, every candidate that is not a seed
    has its name in the result; a count that is not positive is never
    reached. *)
Lemma take_loop_exhausts (cands rec_songs : list Series) :
  (n <= 0)%Z \/ Z.of_nat (length (take_loop seed_songs n cands rec_songs)) <> n ->
  forall s, In s cands -> ~ In (name (values s)) seed_songs ->
            In (name (values s)) (names (take_loop seed_songs n cands rec_songs)).
Proof.
  revert rec_songs. induction cands as [| row cands IH]; intros rec_songs Hlen s Hin Hs.
  - destruct Hin.
  - simpl in *.
    destruct (str_in (name (values row)) seed_songs) eqn:Hseed; simpl in *.
    + destruct Hin as [<- | Hin]; [| now apply IH].
      apply str_in_In in Hseed. contradiction.
    + destruct (str_in (name (values row)) (names rec_songs)) eqn:Hdup; simpl in *.
      * destruct Hin as [<- | Hin]; [| now apply IH].
        apply str_in_In in Hdup.
        destruct (take_loop_extends cands rec_songs) as (picked & -> & _).
        unfold names in *. rewrite map_app. apply in_or_app. now left.
      * destruct (Z.eqb_spec (Z.of_nat (length (rec_songs ++ [row]))) n) as [He | Hne].
        -- exfalso. destruct Hlen as [Hle | Hlen]; [| contradiction].
           rewrite length_app in He. simpl in He. lia.
        -- destruct Hin as [<- | Hin]; [| now apply IH].
           destruct (take_loop_extends cands (rec_songs ++ [row])) as (picked & -> & _).
           unfold names. rewrite !map_app. apply in_or_app. left.
           apply in_or_app. right. simpl. auto.
Qed.

(** The order of the candidates is kept. *)
Lemma take_loop_sorted (key : Series -> Q) (cands rec_songs : list Series) :
  StronglySorted Qle (map key (rec_songs ++ cands)) ->
  StronglySorted Qle (map key (take_loop seed_songs n cands rec_songs)).
Proof.
  assert (forall (l1 l2 : list Q) x,
             StronglySorted Qle (l1 ++ x :: l2) -> StronglySorted Qle (l1 ++ l2)) as Hdrop.
  { induction l1 as [| y l1 IHl]; intros l2 x H; simpl in *.
    - now inversion H.
    - inversion H as [| ? ? Hs Hall]; subst. constructor; eauto.
      rewrite Forall_app in *. destruct Hall as [H1 H2]. split; auto.
      now inversion H2. }
  assert (forall (l1 l2 : list Q),
             StronglySorted Qle (l1 ++ l2) -> StronglySorted Qle l1) as Hprefix.
  { induction l1 as [| y l1 IHl]; intros l2 H; simpl in *.
    - constructor.
    - inversion H as [| ? ? Hs Hall]; subst. constructor; eauto.
      rewrite Forall_app in Hall. tauto. }
  revert rec_songs. induction cands as [| row cands IH]; intros rec_songs Hs; simpl.
  - now rewrite app_nil_r in Hs.
  - assert (StronglySorted Qle (map key ((rec_songs ++ [row]) ++ cands))) as Hs'.
    { now rewrite <- app_assoc. }
    destruct (negb _ && negb _).
    + destruct (Z.of_nat _ =? n)%Z; auto.
      rewrite map_app in Hs'. eapply Hprefix; eauto.
    + apply IH. rewrite map_app in *. simpl in Hs. eapply Hdrop; eauto.
Qed.

End TakeLoop.

(** ** One run of the engine *)

Lemma Forall2_In_l {A B : Type} (R : A -> B -> Prop) (l : list A) (l' : list B) (a : A) :
  Forall2 R l l' -> In a l -> exists b, In b l' /\ R a b.
Proof.
  induction 1 as [| x y l l' Hxy _ IH]; intros Hin; [destruct Hin |];
    destruct Hin as [<- | Hin].
  - exists y. simpl. auto.
  - destruct (IH Hin) as (b & Hb & Hab). exists b. simpl. auto.
Qed.

Lemma Forall2_In_r {A B : Type} (R : A -> B -> Prop) (l : list A) (l' : list B) (b : B) :
  Forall2 R l l' -> In b l' -> exists a, In a l /\ R a b.
Proof.
  induction 1 as [| x y l l' Hxy _ IH]; intros Hin; [destruct Hin |];
    destruct Hin as [<- | Hin].
  - exists x. simpl. auto.
  - destruct (IH Hin) as (a & Ha & Hab). exists a. simpl. auto.
Qed.

Lemma Forall2_map_eq {A B C : Type} (R : A -> B -> Prop) (f : A -> C) (g : B -> C)
    (l : list A) (l' : list B) :
  (forall a b, R a b -> f a = g b) -> Forall2 R l l' -> map f l = map g l'.
Proof.
  intros Hfg. induction 1 as [| x y l l' Hxy _ IH]; simpl; [| rewrite IH, (Hfg x y)]; auto.
Qed.

(** What happens on a request whose seeds are all in the catalog: the mean
    [m] of the seed rows is scaled to [c], every catalog row is fetched in
    the order [cands] of its distance to [c], and the loop runs over them. *)
Lemma engine_run (sqrt : Q -> Q) (data : DataFrame) (G : Globals)
    (seed_songs : list string) (n : Z) :
  startup sqrt data = Ok G -> seed_songs <> [] -> resolvable data seed_songs ->
  exists m c cands,
    get_mean_vector seed_songs data = Ok (Some (array1 m)) /\
    c = StandardScaler.transform_row (standard_scaler G)
          (MinMaxScaler.transform_row (min_max_scaler G) m) /\
    scale_center G (array1 m) = Ok [c] /\
    select sqrt G seed_songs data n (array1 m) = Ok (take_loop seed_songs n cands []) /\
    recommend_songs sqrt G seed_songs data n
    = to_dict_records (take_loop seed_songs n cands []) /\
    Forall (fun s => iloc data (label s) = Ok s) cands /\
    (forall r, In r data -> exists s, In s cands /\ values s = r) /\
    StronglySorted Qle (map (distance_to sqrt G c) cands).
Proof.
  intros Hstart Hne Hres.
  pose proof (startup_fitted _ _ _ Hstart) as HG.
  destruct (resolvable_Forall2 _ _ Hres) as [resolved Hresolved].
  destruct (get_mean_vector_resolved _ _ _ (fitted_data _ _ HG) Hne Hresolved)
    as (r & rest & _ & Hrect & Hmean).
  assert (length (col_mean r rest) = width) as Hm.
  { inversion Hrect as [| ? ? Hr Hrest]; subst.
    rewrite length_col_mean; [assumption | now rewrite Hr]. }
  set (m := col_mean r rest) in *.
  set (c := StandardScaler.transform_row (standard_scaler G)
              (MinMaxScaler.transform_row (min_max_scaler G) m)).
  assert (length c = width) as Hc.
  { apply length_ss_transform_row; try apply HG.
    apply length_mm_transform_row; auto; apply HG. }
  pose proof (scale_center_Ok _ _ _ HG Hm) as Hscale. fold c in Hscale.
  pose proof (rank_Ok sqrt _ _ _ HG Hc) as Hrank.
  set (d := map (euclidean sqrt c) (scaled_normalized_data G)) in *.
  assert (length d = length data) as Hd.
  { unfold d. rewrite length_map. apply HG. }
  destruct (select_loop_take seed_songs data n (np_argsort d) []) as (cands & Hcands & Hloop).
  { rewrite <- Hd. apply np_argsort_in_range. }
  assert (select sqrt G seed_songs data n (array1 m) = Ok (take_loop seed_songs n cands []))
    as Hselect.
  { unfold select. rewrite Hscale. cbn [bind]. rewrite Hrank. cbn [bind]. exact Hloop. }
  exists m, c, cands. repeat split; auto.
  - unfold recommend_songs. rewrite Hmean. cbn [bind]. rewrite Hselect. reflexivity.
  - apply Forall_forall. intros s Hs.
    destruct (Forall2_In_r _ _ _ _ Hcands Hs) as (i & _ & Hi).
    pose proof Hi as Hi'. apply iloc_Ok in Hi'. destruct Hi' as [-> _]. exact Hi.
  - intros row Hrow. apply In_nth_error in Hrow. destruct Hrow as [i Hi].
    assert (In i (np_argsort d)) as Hin.
    { apply (Permutation_in _ (np_argsort_perm d)). apply in_seq.
      rewrite Hd. split; [lia |]. simpl. apply nth_error_Some. congruence. }
    destruct (Forall2_In_l _ _ _ _ Hcands Hin) as (s & Hs & His).
    exists s. split; auto. apply iloc_Ok in His. destruct His as [_ His]. congruence.
  - rewrite <- (Forall2_map_eq (fun i s => iloc data i = Ok s)
                  (fun i => nth i d (euclidean sqrt c [])) (distance_to sqrt G c)
                  (np_argsort d) cands); auto.
    + apply np_argsort_sorted.
    + intros i s His. apply iloc_Ok in His. destruct His as [<- _].
      unfold distance_to, d. apply map_nth.
Qed.

(** ** Columns *)

Lemma nth_map2 {A B C : Type} (f : A -> B -> C) (u : list A) (v : list B) (j : nat)
    (da : A) (db : B) (dc : C) :
  (j < length u)%nat -> (j < length v)%nat ->
  nth j (map2 f u v) dc = f (nth j u da) (nth j v db).
Proof.
  revert v j. induction u as [| a u IH]; intros [| b v] [| j] Hu Hv; simpl in *;
    try lia; auto.
  apply IH; lia.
Qed.

Lemma nth_map_in {A B : Type} (f : A -> B) (l : list A) (j : nat) (da : A) (db : B) :
  (j < length l)%nat -> nth j (map f l) db = f (nth j l da).
Proof.
  intros Hj. rewrite (nth_indep _ db (f da)) by now rewrite length_map.
  apply map_nth.
Qed.

Lemma fold_Qplus (l : list Q) (a : Q) : fold_left Qplus l a == a + Qsum l.
Proof.
  unfold Qsum. revert a. induction l as [| x l IH]; intros a; simpl.
  - ring.
  - rewrite (IH (a + x)), (IH (0 + x)). ring.
Qed.

Lemma Qsum_cons (x : Q) (l : list Q) : Qsum (x :: l) == x + Qsum l.
Proof. unfold Qsum at 1. simpl. rewrite fold_Qplus. ring. Qed.

Lemma Qsum_zero (l : list Q) : Forall (fun x => x == 0) l -> Qsum l == 0.
Proof.
  induction 1 as [| x l Hx _ IH].
  - reflexivity.
  - rewrite Qsum_cons, Hx, IH. ring.
Qed.

Lemma nth_col_sum (r : vec) (rest : list vec) (j : nat) :
  rectangular (length r) rest -> (j < length r)%nat ->
  nth j (col_sum r rest) 0 == Qsum (column j (r :: rest)).
Proof.
  unfold col_sum, column. revert r.
  induction rest as [| x rest IH]; intros r Hrect Hj; simpl.
  - rewrite Qsum_cons. unfold Qsum. simpl. ring.
  - inversion Hrect as [| ? ? Hx Hrest]; subst.
    assert (length (map2 Qplus r x) = length r) as Hlen.
    { rewrite length_map2, Hx. apply Nat.min_id. }
    rewrite IH by (rewrite Hlen; assumption).
    cbn [map]. rewrite !Qsum_cons.
    rewrite (nth_map2 Qplus r x j 0 0 0) by lia. ring.
Qed.

Lemma nth_col_mean (r : vec) (rest : list vec) (j : nat) :
  rectangular (length r) rest -> (j < length r)%nat ->
  nth j (col_mean r rest) 0 == Qsum (column j (r :: rest)) / of_nat (length (r :: rest)).
Proof.
  intros Hrect Hj. unfold col_mean.
  rewrite (nth_map_in _ _ j 0 0).
  - rewrite nth_col_sum by assumption. reflexivity.
  - unfold col_sum. now rewrite length_fold_map2.
Qed.

(** A reduction that returns one of its arguments leaves a constant column
    at its constant. *)
Lemma nth_fold_const (f : Q -> Q -> Q) (r : vec) (rest : list vec) (j : nat) (c : Q) :
  (forall x y, x == c -> y == c -> f x y == c) ->
  rectangular (length r) rest -> (j < length r)%nat ->
  Forall (fun x => x == c) (column j (r :: rest)) ->
  nth j (fold_left (map2 f) rest r) 0 == c.
Proof.
  intros Hf. revert r. induction rest as [| x rest IH]; intros r Hrect Hj Hcol; simpl.
  - now inversion Hcol.
  - inversion Hrect as [| ? ? Hx Hrest]; subst.
    inversion Hcol as [| ? ? Hr0 Hcol']; subst.
    inversion Hcol' as [| ? ? Hx0 Hcol'']; subst.
    assert (length (map2 f r x) = length r) as Hlen.
    { rewrite length_map2, Hx. apply Nat.min_id. }
    apply IH; try (rewrite Hlen; assumption).
    simpl. constructor; auto.
    rewrite (nth_map2 f r x j 0 0 0) by lia. auto.
Qed.

Lemma Qmin_const (c x y : Q) : x == c -> y == c -> Qmin x y == c.
Proof.
  intros Hx Hy. destruct (Q.min_spec x y) as [[_ ->] | [_ ->]]; assumption.
Qed.

Lemma Qmax_const (c x y : Q) : x == c -> y == c -> Qmax x y == c.
Proof.
  intros Hx Hy. destruct (Q.max_spec x y) as [[_ ->] | [_ ->]]; assumption.
Qed.

Lemma handle_zeros_nonzero (scale : vec) :
  Forall (fun d => ~ d == 0) (handle_zeros_in_scale scale).
Proof.
  unfold handle_zeros_in_scale. apply Forall_forall. intros d Hd.
  apply in_map_iff in Hd. destruct Hd as (s & <- & _).
  destruct (Qeq_bool s 0) eqn:Hs.
  - discriminate.
  - now apply Qeq_bool_neq.
Qed.

(** * The engine's contract *)

Lemma demo_fitted : startup Qsqrt demo = Ok demo_globals.
Proof. vm_compute. reflexivity. Qed.

Lemma solo_fitted : startup Qsqrt solo = Ok solo_globals.
Proof. vm_compute. reflexivity. Qed.

Lemma names_metadata (rec_songs : list Series) :
  map song_name (map metadata rec_songs) = names rec_songs.
Proof. unfold names. rewrite map_map. reflexivity. Qed.

(** An empty selection means that the seeds cover every name of the
    catalog, provided the loop could not stop early. *)
Lemma nothing_selected (seed_songs : list string) (n : Z) (data : DataFrame)
    (cands : list Series) :
  (forall r, In r data -> exists s, In s cands /\ values s = r) ->
  take_loop seed_songs n cands [] = [] ->
  forall r, In r data -> In (name r) seed_songs.
Proof.
  intros Hall Hempty r Hr.
  destruct (Hall r Hr) as (s & Hs & <-).
  destruct (in_dec string_dec (name (values s)) seed_songs) as [Hin | Hout]; auto.
  exfalso.
  assert ((n <= 0)%Z \/ Z.of_nat (length (take_loop seed_songs n cands [])) <> n) as Hlen.
  { rewrite Hempty. simpl. lia. }
  pose proof (take_loop_exhausts seed_songs n cands [] Hlen s Hs Hout) as Hname.
  rewrite Hempty in Hname. destruct Hname.
Qed.

(** C1, amended: for a non-empty seed list whose names are all found in the
    catalog, a count of at least one, a catalog that stores the seed songs
    under the names the seeds give and that holds some name which is not a
    seed name, [recommend_songs] returns between one and [n] records, none
    of which bears a seed name, whatever the case of the letters. *)
Theorem recommend_songs_bounded_seed_free (sqrt : Q -> Q) (data : DataFrame) (G : Globals)
    (seed_songs : list string) (n : Z) :
  startup sqrt data = Ok G ->
  seed_songs <> [] ->
  resolvable data seed_songs ->
  (1 <= n)%Z ->
  stored_as_given data seed_songs ->
  (exists r, In r data /\ ~ In (name r) seed_songs) ->
  exists recs,
    recommend_songs sqrt G seed_songs data n = Ok recs /\
    recs <> [] /\
    (Z.of_nat (length recs) <= n)%Z /\
    forall r song, In r recs -> In song seed_songs ->
                   str_lower (song_name r) <> str_lower song.
Proof.
  intros Hstart Hne Hres Hn Hstored (r0 & Hr0 & Hout).
  destruct (engine_run sqrt data G seed_songs n Hstart Hne Hres)
    as (m & c & cands & _ & _ & _ & _ & Hrec & Hiloc & Hall & _).
  rewrite Hrec.
  destruct (take_loop seed_songs n cands []) as [| s rec_songs] eqn:Hloop.
  - exfalso. apply Hout. eapply nothing_selected; eauto.
  - exists (map metadata (s :: rec_songs)). split; [reflexivity |].
    split; [discriminate |]. split.
    + rewrite length_map, <- Hloop. apply take_loop_length. simpl. lia.
    + intros r song Hr Hsong Hcase. apply in_map_iff in Hr. destruct Hr as (x & <- & Hx).
      destruct (take_loop_extends seed_songs n cands []) as (picked & Hp & Hseed).
      rewrite Hloop in Hp. simpl in Hp. subst picked.
      rewrite Forall_forall in Hseed, Hiloc.
      destruct (Hseed x Hx) as [Hcand Hnot]. apply Hnot.
      specialize (Hiloc x Hcand). apply iloc_Ok in Hiloc. destruct Hiloc as [_ Hnth].
      apply nth_error_In in Hnth.
      cbn [metadata song_name] in Hcase.
      now rewrite (Hstored (values x) song Hnth Hsong Hcase).
Qed.

Lemma recommend_songs_bounded_seed_free_witness :
  startup Qsqrt demo = Ok demo_globals /\
  ["yesterday"] <> [] /\
  resolvable demo ["yesterday"] /\
  (1 <= 2)%Z /\
  stored_as_given demo ["yesterday"] /\
  (exists r, In r demo /\ ~ In (name r) ["yesterday"]) /\
  exists recs,
    recommend_songs Qsqrt demo_globals ["yesterday"] demo 2 = Ok recs /\
    recs <> [] /\
    (Z.of_nat (length recs) <= 2)%Z /\
    forall r song, In r recs -> In song ["yesterday"] ->
                   str_lower (song_name r) <> str_lower song.
Proof.
  assert (resolvable demo ["yesterday"]) as Hres.
  { intros song [<- | []]. vm_compute. discriminate. }
  assert (stored_as_given demo ["yesterday"]) as Hstored.
  { intros r song [<- | [<- | [<- | [<- | []]]]] [<- | []] Hcase;
      first [reflexivity | vm_compute in Hcase; discriminate]. }
  assert (exists r, In r demo /\ ~ In (name r) ["yesterday"]) as Hsome.
  { exists (track "imagine" "John Lennon" (4 # 10) 1971). split.
    - simpl. auto.
    - intros [H | []]. discriminate. }
  split; [exact demo_fitted |]. split; [discriminate |]. split; [exact Hres |].
  split; [lia |]. split; [exact Hstored |]. split; [exact Hsome |].
  apply (recommend_songs_bounded_seed_free Qsqrt demo demo_globals ["yesterday"] 2);
    [exact demo_fitted | discriminate | exact Hres | lia | exact Hstored | exact Hsome].
Defined.

(** C1, as the specification words it, fails.  With the count 0 the test
    of the loop on the number of rows appended is never met and three
    records come back, more than were asked for.  And the empty seed list,
    whose names all resolve, returns no records at all: the scaler refuses
    the mean of no vectors and the call raises. *)
Lemma recommend_songs_count_zero_not_bounded :
  startup Qsqrt demo = Ok demo_globals /\
  resolvable demo ["yesterday"] /\
  recommend_songs Qsqrt demo_globals ["yesterday"] demo 0
  = Ok [{| song_name := "imagine"; song_artists := "John Lennon"; song_year := 1971 |};
        {| song_name := "hello"; song_artists := "Lionel Richie"; song_year := 1984 |};
        {| song_name := "Hello"; song_artists := "Adele"; song_year := 2015 |}] /\
  resolvable demo [] /\
  recommend_songs Qsqrt demo_globals [] demo 1 = Raise ValueError.
Proof.
  repeat split; try (vm_compute; reflexivity).
  - intros song [<- | []]. vm_compute. discriminate.
  - intros song [].
Qed.

(** A defect the amended statement leaves aside.  The button lowercases
    the name entered; the lookup finds it under the lowercased stored names,
    while the selection loop, meant to filter out the seed songs, compares
    the stored names as they are.  So "Hello", entered at the prompt, is
    found as the row "Hello" and that very row is recommended. *)
Lemma recommend_songs_seed_row_returned :
  resolvable demo ["hello"] /\
  get_song_data "hello" demo
  = Ok (Some {| label := 1; values := track "Hello" "Adele" (9 # 10) 2015 |}) /\
  recommend_songs Qsqrt demo_globals ["hello"] demo 1
  = Ok [{| song_name := "Hello"; song_artists := "Adele"; song_year := 2015 |}] /\
  on_recommend Qsqrt ["Hello"] 1 {| st_data := demo; st_globals := demo_globals |}
  = Ok (chart [{| song_name := "Hello"; song_artists := "Adele"; song_year := 2015 |}]).
Proof.
  repeat split; try (vm_compute; reflexivity).
  intros song [<- | []]. vm_compute. discriminate.
Qed.

(** C2: for a non-empty seed list found in the catalog, the rows selected
    by [recommend_songs] are rows of the catalog under their own labels, and
    they come in non-decreasing Euclidean distance between their row of the
    scaled catalog matrix and the normalized seed center [c]; the records
    returned are these rows, in this order. *)
Theorem recommend_songs_ranked (sqrt : Q -> Q) (data : DataFrame) (G : Globals)
    (seed_songs : list string) (n : Z) :
  startup sqrt data = Ok G ->
  seed_songs <> [] ->
  resolvable data seed_songs ->
  exists m c rec_songs,
    get_mean_vector seed_songs data = Ok (Some m) /\
    query_center G seed_songs data = Ok (Some [c]) /\
    select sqrt G seed_songs data n m = Ok rec_songs /\
    recommend_songs sqrt G seed_songs data n = to_dict_records rec_songs /\
    (forall recs, recommend_songs sqrt G seed_songs data n = Ok recs ->
                  recs = map metadata rec_songs) /\
    Forall (fun s => iloc data (label s) = Ok s) rec_songs /\
    StronglySorted Qle (map (distance_to sqrt G c) rec_songs).
Proof.
  intros Hstart Hne Hres.
  destruct (engine_run sqrt data G seed_songs n Hstart Hne Hres)
    as (m & c & cands & Hmean & _ & Hscale & Hsel & Hrec & Hiloc & _ & Hsorted).
  exists (array1 m), c, (take_loop seed_songs n cands []).
  repeat split; auto.
  - unfold query_center. rewrite Hmean. cbn [bind]. rewrite Hscale. reflexivity.
  - intros recs Hrecs. rewrite Hrec in Hrecs.
    destruct (take_loop seed_songs n cands []); [discriminate |].
    now injection Hrecs as <-.
  - destruct (take_loop_extends seed_songs n cands []) as (picked & -> & Hp).
    simpl. rewrite Forall_forall in *. intros s Hs. apply Hiloc. now apply Hp.
  - apply take_loop_sorted. exact Hsorted.
Qed.

Lemma recommend_songs_ranked_witness :
  startup Qsqrt demo = Ok demo_globals /\
  ["hello"; "imagine"] <> [] /\
  resolvable demo ["hello"; "imagine"] /\
  exists m c rec_songs,
    get_mean_vector ["hello"; "imagine"] demo = Ok (Some m) /\
    query_center demo_globals ["hello"; "imagine"] demo = Ok (Some [c]) /\
    select Qsqrt demo_globals ["hello"; "imagine"] demo 3 m = Ok rec_songs /\
    recommend_songs Qsqrt demo_globals ["hello"; "imagine"] demo 3
    = to_dict_records rec_songs /\
    (forall recs, recommend_songs Qsqrt demo_globals ["hello"; "imagine"] demo 3 = Ok recs ->
                  recs = map metadata rec_songs) /\
    Forall (fun s => iloc demo (label s) = Ok s) rec_songs /\
    StronglySorted Qle (map (distance_to Qsqrt demo_globals c) rec_songs).
Proof.
  assert (resolvable demo ["hello"; "imagine"]) as Hres.
  { intros song [<- | [<- | []]]; vm_compute; discriminate. }
  split; [exact demo_fitted |]. split; [discriminate |]. split; [exact Hres |].
  apply (recommend_songs_ranked Qsqrt demo demo_globals ["hello"; "imagine"] 3);
    [exact demo_fitted | discriminate | exact Hres].
Defined.

(** C3: one seed name that the lookup does not find empties the result,
    whatever the other seeds and the count are. *)
Theorem recommend_songs_unresolved_seed (sqrt : Q -> Q) (data : DataFrame) (G : Globals)
    (seed_songs : list string) (n : Z) :
  startup sqrt data = Ok G ->
  (exists song, In song seed_songs /\ get_song_data song data = Ok None) ->
  recommend_songs sqrt G seed_songs data n = Ok [].
Proof.
  intros Hstart Hbad.
  pose proof (startup_fitted _ _ _ Hstart) as HG.
  unfold recommend_songs, get_mean_vector.
  rewrite (collect_vectors_unresolved _ _ [] (fitted_data _ _ HG) Hbad).
  reflexivity.
Qed.

Lemma recommend_songs_unresolved_seed_witness :
  startup Qsqrt demo = Ok demo_globals /\
  (exists song, In song ["hello"; "unknown-song"] /\ get_song_data song demo = Ok None) /\
  recommend_songs Qsqrt demo_globals ["hello"; "unknown-song"] demo 5 = Ok [].
Proof.
  assert (exists song, In song ["hello"; "unknown-song"] /\ get_song_data song demo = Ok None)
    as Hbad.
  { exists "unknown-song". split; [simpl; auto | reflexivity]. }
  split; [exact demo_fitted |]. split; [exact Hbad |].
  apply (recommend_songs_unresolved_seed Qsqrt demo demo_globals
           ["hello"; "unknown-song"] 5 demo_fitted Hbad).
Defined.

(** ** The query center *)

(** C4: for a non-empty seed list resolved to the rows [resolved], the
    song center [m] has 15 components, each the arithmetic mean of that
    column over the resolved rows, and the query center [c] is [m] taken
    through the fitted min-max scaling ([x * scale_ + min_]) and then
    through the fitted standardization ([(x - mean_) / scale_]). *)
Theorem query_center_scaled_mean (sqrt : Q -> Q) (data : DataFrame) (G : Globals)
    (seed_songs : list string) (resolved : list Series) :
  startup sqrt data = Ok G ->
  seed_songs <> [] ->
  Forall2 (fun song s => get_song_data song data = Ok (Some s)) seed_songs resolved ->
  exists m c,
    get_mean_vector seed_songs data = Ok (Some (array1 m)) /\
    query_center G seed_songs data = Ok (Some [c]) /\
    length m = 15%nat /\
    length c = 15%nat /\
    c = StandardScaler.transform_row (standard_scaler G)
          (MinMaxScaler.transform_row (min_max_scaler G) m) /\
    forall j, (j < 15)%nat ->
      nth j m 0
      == Qsum (map (fun s => nth j (nums (values s)) 0) resolved) / of_nat (length resolved) /\
      nth j c 0
      = (nth j m 0 * nth j (MinMaxScaler.scale_ (min_max_scaler G)) 0
         + nth j (MinMaxScaler.min_ (min_max_scaler G)) 0
         - nth j (StandardScaler.mean_ (standard_scaler G)) 0)
        / nth j (StandardScaler.scale_ (standard_scaler G)) 0.
Proof.
  intros Hstart Hne Hres. change 15%nat with width.
  pose proof (startup_fitted _ _ _ Hstart) as HG.
  destruct (get_mean_vector_resolved _ _ _ (fitted_data _ _ HG) Hne Hres)
    as (r & rest & Hrows & Hrect & Hmean).
  inversion Hrect as [| ? ? Hr Hrest]; subst.
  assert (rectangular (length r) rest) as Hrest' by now rewrite Hr.
  assert (length (col_mean r rest) = width) as Hm.
  { now rewrite length_col_mean. }
  pose proof (scale_center_Ok _ _ _ HG Hm) as Hscale.
  pose proof (length_mm_transform_row (min_max_scaler G) width (col_mean r rest)
                (fitted_mm_scale _ _ HG) (fitted_mm_min _ _ HG) Hm) as Hnorm.
  exists (col_mean r rest). eexists. split; [exact Hmean |]. split.
  { unfold query_center. rewrite Hmean. cbn [bind]. rewrite Hscale. reflexivity. }
  split; [exact Hm |]. split.
  { apply length_ss_transform_row; auto; apply HG. }
  split; [reflexivity |].
  intros j Hj. split.
  - rewrite nth_col_mean by (auto; lia).
    unfold column, vec in *. rewrite <- Hrows, map_map, length_map. reflexivity.
  - unfold StandardScaler.transform_row, MinMaxScaler.transform_row.
    pose proof (fitted_mm_scale _ _ HG) as H1. pose proof (fitted_mm_min _ _ HG) as H2.
    pose proof (fitted_ss_mean _ _ HG) as H3. pose proof (fitted_ss_scale _ _ HG) as H4.
    rewrite (nth_map2 Qdiv _ _ j 0 0 0);
      [| rewrite !length_map2, Hm, H1, H2, H3, !Nat.min_id; exact Hj | rewrite H4; exact Hj].
    rewrite (nth_map2 Qminus _ _ j 0 0 0);
      [| rewrite !length_map2, Hm, H1, H2, !Nat.min_id; exact Hj | rewrite H3; exact Hj].
    rewrite (nth_map2 Qplus _ _ j 0 0 0);
      [| rewrite !length_map2, Hm, H1, !Nat.min_id; exact Hj | rewrite H2; exact Hj].
    rewrite (nth_map2 Qmult _ _ j 0 0 0); [| rewrite Hm; exact Hj | rewrite H1; exact Hj].
    reflexivity.
Qed.

Lemma query_center_scaled_mean_witness :
  startup Qsqrt demo = Ok demo_globals /\
  ["hello"; "imagine"] <> [] /\
  Forall2 (fun song s => get_song_data song demo = Ok (Some s)) ["hello"; "imagine"]
    demo_resolved /\
  exists m c,
    get_mean_vector ["hello"; "imagine"] demo = Ok (Some (array1 m)) /\
    query_center demo_globals ["hello"; "imagine"] demo = Ok (Some [c]) /\
    length m = 15%nat /\
    length c = 15%nat /\
    c = StandardScaler.transform_row (standard_scaler demo_globals)
          (MinMaxScaler.transform_row (min_max_scaler demo_globals) m) /\
    forall j, (j < 15)%nat ->
      nth j m 0
      == Qsum (map (fun s => nth j (nums (values s)) 0) demo_resolved)
         / of_nat (length demo_resolved) /\
      nth j c 0
      = (nth j m 0 * nth j (MinMaxScaler.scale_ (min_max_scaler demo_globals)) 0
         + nth j (MinMaxScaler.min_ (min_max_scaler demo_globals)) 0
         - nth j (StandardScaler.mean_ (standard_scaler demo_globals)) 0)
        / nth j (StandardScaler.scale_ (standard_scaler demo_globals)) 0.
Proof.
  assert (Forall2 (fun song s => get_song_data song demo = Ok (Some s)) ["hello"; "imagine"]
            demo_resolved) as Hres.
  { repeat constructor. }
  split; [exact demo_fitted |]. split; [discriminate |]. split; [exact Hres |].
  apply (query_center_scaled_mean Qsqrt demo demo_globals ["hello"; "imagine"] demo_resolved
           demo_fitted); [discriminate | exact Hres].
Defined.

(** C5, as the code has it: [recommend_songs] raises [ValueError] on an
    empty seed list (the mean of no vectors is not a row the scaler takes),
    which the button never passes it: with no name entered it warns and
    calls nothing.  And a count that is not positive is never reached: with
    seeds found in the catalog and some catalog name that is not a seed
    name, every such name is returned, each once. *)
Theorem recommend_songs_no_seed_or_no_count (sqrt : Q -> Q) (data : DataFrame) (G : Globals)
    (seed_songs : list string) (n : Z) :
  startup sqrt data = Ok G ->
  seed_songs <> [] ->
  resolvable data seed_songs ->
  (n <= 0)%Z ->
  (exists r, In r data /\ ~ In (name r) seed_songs) ->
  (forall k, recommend_songs sqrt G [] data k = Raise ValueError) /\
  (forall k blanks,
      Forall (fun s => s = "") blanks ->
      on_recommend sqrt blanks k {| st_data := data; st_globals := G |}
      = Ok (warning "Please enter at least one song name.")) /\
  exists recs,
    recommend_songs sqrt G seed_songs data n = Ok recs /\
    recs <> [] /\
    NoDup (map song_name recs) /\
    forall r, In r data -> ~ In (name r) seed_songs -> In (name r) (map song_name recs).
Proof.
  intros Hstart Hne Hres Hn (r0 & Hr0 & Hout). split; [reflexivity |]. split.
  { intros k blanks Hblanks. unfold on_recommend.
    assert (filter (fun song => negb (String.eqb song "")) (map str_lower blanks) = [])
      as ->; [| reflexivity].
    induction Hblanks as [| s blanks -> _ IH]; simpl; auto. }
  destruct (engine_run sqrt data G seed_songs n Hstart Hne Hres)
    as (m & c & cands & _ & _ & _ & _ & Hrec & _ & Hall & _).
  rewrite Hrec.
  pose proof (take_loop_NoDup seed_songs n cands [] (NoDup_nil _)) as Hnd.
  pose proof (take_loop_exhausts seed_songs n cands [] (or_introl Hn)) as Hex.
  destruct (take_loop seed_songs n cands []) as [| s rec_songs] eqn:Hloop.
  - exfalso. apply Hout. eapply nothing_selected; eauto.
  - exists (map metadata (s :: rec_songs)). split; [reflexivity |].
    split; [discriminate |]. rewrite names_metadata. split; [assumption |].
    intros r Hr Hnot. destruct (Hall r Hr) as (x & Hx & <-). now apply Hex.
Qed.

Lemma recommend_songs_no_seed_or_no_count_witness :
  startup Qsqrt demo = Ok demo_globals /\
  ["yesterday"] <> [] /\
  resolvable demo ["yesterday"] /\
  (0 <= 0)%Z /\
  (exists r, In r demo /\ ~ In (name r) ["yesterday"]) /\
  (forall k, recommend_songs Qsqrt demo_globals [] demo k = Raise ValueError) /\
  (forall k blanks,
      Forall (fun s => s = "") blanks ->
      on_recommend Qsqrt blanks k {| st_data := demo; st_globals := demo_globals |}
      = Ok (warning "Please enter at least one song name.")) /\
  exists recs,
    recommend_songs Qsqrt demo_globals ["yesterday"] demo 0 = Ok recs /\
    recs <> [] /\
    NoDup (map song_name recs) /\
    forall r, In r demo -> ~ In (name r) ["yesterday"] -> In (name r) (map song_name recs).
Proof.
  assert (resolvable demo ["yesterday"]) as Hres.
  { intros song [<- | []]. vm_compute. discriminate. }
  assert (exists r, In r demo /\ ~ In (name r) ["yesterday"]) as Hsome.
  { exists (track "imagine" "John Lennon" (4 # 10) 1971). split.
    - simpl. auto.
    - intros [H | []]. discriminate. }
  split; [exact demo_fitted |]. split; [discriminate |]. split; [exact Hres |].
  split; [lia |]. split; [exact Hsome |].
  apply (recommend_songs_no_seed_or_no_count Qsqrt demo demo_globals ["yesterday"] 0);
    [exact demo_fitted | discriminate | exact Hres | lia | exact Hsome].
Defined.

(** C5, as the specification words it, fails on both counts: the empty
    seed list raises, and the count 0 returns three records. *)
Lemma recommend_songs_empty_inputs_not_empty :
  startup Qsqrt demo = Ok demo_globals /\
  recommend_songs Qsqrt demo_globals [] demo 3 = Raise ValueError /\
  resolvable demo ["yesterday"] /\
  recommend_songs Qsqrt demo_globals ["yesterday"] demo 0
  = Ok [{| song_name := "imagine"; song_artists := "John Lennon"; song_year := 1971 |};
        {| song_name := "hello"; song_artists := "Lionel Richie"; song_year := 1984 |};
        {| song_name := "Hello"; song_artists := "Adele"; song_year := 2015 |}].
Proof.
  repeat split; try (vm_compute; reflexivity).
  intros song [<- | []]. vm_compute. discriminate.
Qed.

(** C6, as the code has it: the lookup compares the name it is given, as
    given, with the lowercased stored names; it returns the first stored row
    that matches, with its label, and [None] (never an exception) when no row
    matches.  On a name that is already lowercase this is the lookup of the
    specification. *)
Theorem get_song_data_first_match (name0 : string) (data : DataFrame) :
  ((exists s l1 l2,
       get_song_data name0 data = Ok (Some s) /\
       data = l1 ++ values s :: l2 /\
       label s = length l1 /\
       str_lower (name (values s)) = name0 /\
       forall r, In r l1 -> str_lower (name r) <> name0)
   \/ (get_song_data name0 data = Ok None /\
       forall r, In r data -> str_lower (name r) <> name0))
  /\ get_song_data (str_lower name0) data = Ok (lookup_spec name0 data).
Proof.
  split; [| apply get_song_data_hd].
  rewrite get_song_data_hd. unfold select_mask, rows.
  pose proof (label_rows_from data 0 (fun r => String.eqb (str_lower (name r)) name0)) as H.
  destruct (hd_error _) as [s |].
  - left. destruct H as (l1 & l2 & Hd & Hl & Hs & Hbefore).
    exists s, l1, l2. repeat split; auto.
    + now apply String.eqb_eq.
    + intros r Hin. apply String.eqb_neq. auto.
  - right. split; auto. intros r Hin. apply String.eqb_neq. auto.
Qed.

(** C6, as the specification words it, fails: a name given with capitals
    misses the stored name it equals once both are lowercased. *)
Lemma get_song_data_keeps_case :
  get_song_data "Hello" demo = Ok None /\
  lookup_spec "Hello" demo
  = Some {| label := 1; values := track "Hello" "Adele" (9 # 10) 2015 |}.
Proof. split; reflexivity. Qed.

(** C7, as the code has it: the selection compares a candidate's stored
    name with the names already selected by string equality, and no two
    records of the result bear the same name. *)
Theorem recommend_songs_distinct_names (sqrt : Q -> Q) (data : DataFrame) (G : Globals)
    (seed_songs : list string) (n : Z) :
  startup sqrt data = Ok G ->
  seed_songs <> [] ->
  resolvable data seed_songs ->
  exists m rec_songs,
    get_mean_vector seed_songs data = Ok (Some m) /\
    select sqrt G seed_songs data n m = Ok rec_songs /\
    NoDup (names rec_songs) /\
    recommend_songs sqrt G seed_songs data n = to_dict_records rec_songs /\
    forall recs, recommend_songs sqrt G seed_songs data n = Ok recs ->
                 NoDup (map song_name recs).
Proof.
  intros Hstart Hne Hres.
  destruct (engine_run sqrt data G seed_songs n Hstart Hne Hres)
    as (m & c & cands & Hmean & _ & _ & Hsel & Hrec & _).
  assert (NoDup (names (take_loop seed_songs n cands []))) as Hnd.
  { apply take_loop_NoDup. constructor. }
  exists (array1 m), (take_loop seed_songs n cands []).
  repeat split; auto.
  intros recs Hrecs. rewrite Hrec in Hrecs.
  destruct (take_loop seed_songs n cands []) as [| s rec_songs]; [discriminate |].
  injection Hrecs as <-.
  rewrite <- (names_metadata (s :: rec_songs)) in Hnd. exact Hnd.
Qed.

Lemma recommend_songs_distinct_names_witness :
  startup Qsqrt demo = Ok demo_globals /\
  ["yesterday"] <> [] /\
  resolvable demo ["yesterday"] /\
  exists m rec_songs,
    get_mean_vector ["yesterday"] demo = Ok (Some m) /\
    select Qsqrt demo_globals ["yesterday"] demo 2 m = Ok rec_songs /\
    NoDup (names rec_songs) /\
    recommend_songs Qsqrt demo_globals ["yesterday"] demo 2 = to_dict_records rec_songs /\
    forall recs, recommend_songs Qsqrt demo_globals ["yesterday"] demo 2 = Ok recs ->
                 NoDup (map song_name recs).
Proof.
  assert (resolvable demo ["yesterday"]) as Hres.
  { intros song [<- | []]. vm_compute. discriminate. }
  split; [exact demo_fitted |]. split; [discriminate |]. split; [exact Hres |].
  apply (recommend_songs_distinct_names Qsqrt demo demo_globals ["yesterday"] 2);
    [exact demo_fitted | discriminate | exact Hres].
Defined.

(** C7, as the specification words it, fails: "hello" and "Hello" are the
    same name once compared without case, and both are returned. *)
Lemma recommend_songs_same_name_twice :
  startup Qsqrt demo = Ok demo_globals /\
  resolvable demo ["yesterday"] /\
  recommend_songs Qsqrt demo_globals ["yesterday"] demo 3
  = Ok [{| song_name := "imagine"; song_artists := "John Lennon"; song_year := 1971 |};
        {| song_name := "hello"; song_artists := "Lionel Richie"; song_year := 1984 |};
        {| song_name := "Hello"; song_artists := "Adele"; song_year := 2015 |}] /\
  str_lower "hello" = str_lower "Hello".
Proof.
  repeat split; try (vm_compute; reflexivity).
  intros song [<- | []]. vm_compute. discriminate.
Qed.

(** ** Running out of catalog *)

Lemma in_available (data : DataFrame) (seed_songs : list string) (nm : string) :
  In nm (available data seed_songs) <->
  (exists r, In r data /\ name r = nm) /\ ~ In nm seed_songs.
Proof.
  unfold available. rewrite nodup_In, filter_In, in_map_iff, negb_true_iff, str_in_not_In.
  split; intros [(r & H1 & H2) H3]; split; eauto.
Qed.

(** With a positive count larger than what the catalog can offer, and
    something to offer, the result bears exactly the available names. *)
Lemma recommend_songs_all_available (sqrt : Q -> Q) (data : DataFrame) (G : Globals)
    (seed_songs : list string) (n : Z) :
  startup sqrt data = Ok G ->
  seed_songs <> [] ->
  resolvable data seed_songs ->
  (Z.of_nat (length (available data seed_songs)) < n)%Z ->
  available data seed_songs <> [] ->
  exists recs,
    recommend_songs sqrt G seed_songs data n = Ok recs /\
    Permutation (map song_name recs) (available data seed_songs).
Proof.
  intros Hstart Hne Hres Hn Hsome.
  destruct (engine_run sqrt data G seed_songs n Hstart Hne Hres)
    as (m & c & cands & _ & _ & _ & _ & Hrec & Hiloc & Hall & _).
  rewrite Hrec.
  pose proof (take_loop_NoDup seed_songs n cands [] (NoDup_nil _)) as Hnd.
  destruct (take_loop_extends seed_songs n cands []) as (picked & Hp & Hseed).
  simpl in Hp.
  assert (incl (names (take_loop seed_songs n cands [])) (available data seed_songs)) as Hincl.
  { rewrite Hp. intros nm Hnm. unfold names in Hnm. apply in_map_iff in Hnm.
    destruct Hnm as (s & <- & Hs). rewrite Forall_forall in Hseed, Hiloc.
    destruct (Hseed s Hs) as [Hcand Hout]. apply in_available. split; auto.
    exists (values s). split; auto.
    specialize (Hiloc s Hcand). apply iloc_Ok in Hiloc. destruct Hiloc as [_ Hnth].
    now apply nth_error_In in Hnth. }
  assert (Z.of_nat (length (take_loop seed_songs n cands [])) <> n) as Hlen.
  { pose proof (NoDup_incl_length Hnd Hincl) as Hle.
    unfold names in Hle. rewrite length_map in Hle. lia. }
  pose proof (take_loop_exhausts seed_songs n cands [] (or_intror Hlen)) as Hex.
  assert (Permutation (names (take_loop seed_songs n cands [])) (available data seed_songs))
    as Hperm.
  { apply NoDup_Permutation; auto.
    - apply NoDup_nodup.
    - intros nm. split; [apply Hincl |]. intros Hnm.
      apply in_available in Hnm. destruct Hnm as [(r & Hr & <-) Hout].
      destruct (Hall r Hr) as (x & Hx & <-). now apply Hex. }
  destruct (take_loop seed_songs n cands []) as [| s rec_songs].
  - exfalso. apply Hsome. apply Permutation_nil in Hperm. exact Hperm.
  - exists (map metadata (s :: rec_songs)). split; [reflexivity |].
    now rewrite names_metadata.
Qed.

(** C8, where the code departs from it: when the seeds cover every name of
    the catalog nothing is selected, and instead of returning no record
    [recommend_songs] raises [KeyError]; the warning the button keeps for an
    empty result is never shown. *)
Theorem recommend_songs_nothing_available_raises :
  startup Qsqrt solo = Ok solo_globals /\
  resolvable solo ["yesterday"] /\
  available solo ["yesterday"] = [] /\
  recommend_songs Qsqrt solo_globals ["yesterday"] solo 5 = Raise KeyError /\
  on_recommend Qsqrt ["yesterday"] 5 {| st_data := solo; st_globals := solo_globals |}
  = Raise KeyError.
Proof.
  split; [exact solo_fitted |].
  repeat split; try (vm_compute; reflexivity).
  intros song [<- | []]. vm_compute. discriminate.
Qed.

(** ** A constant column *)



(** ** One call after another *)

(** The loop of [get_mean_vector] returns what [collect_vectors] computes
    from the frame, and leaves the frame and the globals as they were; it
    may have printed. *)
Lemma collect_vectors_run_frame (song_list : list string) (song_vectors : list vec)
    (w : World) :
  fst (collect_vectors_run song_list song_vectors w)
  = collect_vectors song_list (st_data (w_state w)) song_vectors /\
  w_state (snd (collect_vectors_run song_list song_vectors w)) = w_state w.
Proof.
  revert song_vectors. induction song_list as [| song song_list IH]; intros song_vectors.
  - split; reflexivity.
  - cbn [collect_vectors_run collect_vectors].
    unfold and_then, deref_data, eval.
    destruct (get_song_data song (st_data (w_state w))) as [[s |] | e]; cbn [bind].
    + destruct (getitem_number_cols (values s)) as [song_vector | e]; cbn [bind].
      * apply IH.
      * split; reflexivity.
    + split; reflexivity.
    + split; reflexivity.
Qed.

Lemma get_mean_vector_run_frame (song_list : list string) (w : World) :
  fst (get_mean_vector_run song_list w)
  = get_mean_vector song_list (st_data (w_state w)) /\
  w_state (snd (get_mean_vector_run song_list w)) = w_state w.
Proof.
  unfold get_mean_vector_run, get_mean_vector, and_then, ret.
  destruct (collect_vectors_run_frame song_list [] w) as [Hout Hstate].
  destruct (collect_vectors_run song_list [] w) as [[[m |] | e] w'];
    cbn [fst snd] in Hout, Hstate; rewrite <- Hout; cbn [bind fst snd];
    split; auto.
Qed.

(** The call as it runs returns what [recommend_songs] computes from the
    frame and the globals of the world it starts in, and leaves both as
    they were. *)
Lemma recommend_songs_run_frame (sqrt : Q -> Q) (seed_songs : list string) (n : Z)
    (w : World) :
  fst (recommend_songs_run sqrt seed_songs n w)
  = recommend_songs sqrt (st_globals (w_state w)) seed_songs (st_data (w_state w)) n /\
  w_state (snd (recommend_songs_run sqrt seed_songs n w)) = w_state w.
Proof.
  unfold recommend_songs_run, recommend_songs, select, scale_center, rank.
  unfold and_then, deref_global, deref_data, eval, ret.
  destruct (get_mean_vector_run_frame seed_songs w) as [Hout Hstate].
  destruct (get_mean_vector_run seed_songs w) as [[[song_center |] | e] w'];
    cbn [fst snd] in Hout, Hstate; rewrite <- Hout; cbn [bind fst snd];
    try (split; [reflexivity | exact Hstate]).
  rewrite Hstate.
  destruct (check_array [song_center]) as [X | e]; cbn [bind fst snd]; [| now split].
  destruct (MinMaxScaler.transform _ X) as [Y | e]; cbn [bind fst snd]; [| now split].
  destruct (StandardScaler.transform _ Y) as [c | e]; cbn [bind fst snd]; [| now split].
  destruct (cdist sqrt c _) as [distances | e]; cbn [bind fst snd]; [| now split].
  destruct (getitem0 _) as [index | e]; cbn [bind fst snd]; [| now split].
  destruct (select_loop _ _ _ _ _) as [rec_songs | e]; cbn [bind fst snd]; [| now split].
  destruct (to_dict_records rec_songs); now split.
Qed.

(** A call that meets an unknown song prints its warning: the world it
    leaves is not the world it found. *)
Lemma recommend_songs_run_warns :
  recommend_songs_run Qsqrt ["hello"; "unknown song"] 3 (demo_world [])
  = (Ok [], demo_world ["Warning: unknown song does not exist in the dataset"]).
Proof. vm_compute. reflexivity. Qed.



(** * Further properties of the engine *)

(** ** The candidates of a request *)

(** As [engine_run], with the candidates named once for every count: they
    are the catalog rows, each under its label, by distance to the center. *)
Lemma engine_run_all (sqrt : Q -> Q) (data : DataFrame) (G : Globals)
    (seed_songs : list string) :
  startup sqrt data = Ok G -> seed_songs <> [] -> resolvable data seed_songs ->
  exists m c cands,
    get_mean_vector seed_songs data = Ok (Some (array1 m)) /\
    length m = width /\
    c = StandardScaler.transform_row (standard_scaler G)
          (MinMaxScaler.transform_row (min_max_scaler G) m) /\
    query_center G seed_songs data = Ok (Some [c]) /\
    (forall s, In s cands <-> iloc data (label s) = Ok s) /\
    StronglySorted Qle (map (distance_to sqrt G c) cands) /\
    forall n, recommend_songs sqrt G seed_songs data n
              = to_dict_records (take_loop seed_songs n cands []).
Proof.
  intros Hstart Hne Hres.
  pose proof (startup_fitted _ _ _ Hstart) as HG.
  destruct (resolvable_Forall2 _ _ Hres) as [resolved Hresolved].
  destruct (get_mean_vector_resolved _ _ _ (fitted_data _ _ HG) Hne Hresolved)
    as (r & rest & _ & Hrect & Hmean).
  assert (length (col_mean r rest) = width) as Hm.
  { inversion Hrect as [| ? ? Hr Hrest]; subst.
    rewrite length_col_mean; [assumption | now rewrite Hr]. }
  set (m := col_mean r rest) in *.
  set (c := StandardScaler.transform_row (standard_scaler G)
              (MinMaxScaler.transform_row (min_max_scaler G) m)).
  assert (length c = width) as Hc.
  { apply length_ss_transform_row; try apply HG.
    apply length_mm_transform_row; auto; apply HG. }
  pose proof (scale_center_Ok _ _ _ HG Hm) as Hscale. fold c in Hscale.
  pose proof (rank_Ok sqrt _ _ _ HG Hc) as Hrank.
  set (d := map (euclidean sqrt c) (scaled_normalized_data G)) in *.
  assert (length d = length data) as Hd.
  { unfold d. rewrite length_map. apply HG. }
  assert (Forall (fun i => (i < length data)%nat) (np_argsort d)) as Hrange.
  { rewrite <- Hd. apply np_argsort_in_range. }
  destruct (select_loop_take seed_songs data 0 (np_argsort d) [] Hrange)
    as (cands & Hcands & _).
  exists m, c, cands. split; [exact Hmean |]. split; [exact Hm |]. split; [reflexivity |].
  split.
  { unfold query_center. rewrite Hmean. cbn [bind]. rewrite Hscale. reflexivity. }
  split.
  { intros s. split.
    - intros Hs. destruct (Forall2_In_r _ _ _ _ Hcands Hs) as (i & _ & Hi).
      pose proof Hi as Hi'. apply iloc_Ok in Hi'. destruct Hi' as [-> _]. exact Hi.
    - intros Hs. pose proof Hs as Hs'. apply iloc_Ok in Hs'. destruct Hs' as [_ Hnth].
      assert (In (label s) (np_argsort d)) as Hin.
      { apply (Permutation_in _ (np_argsort_perm d)). apply in_seq.
        rewrite Hd. split; [lia |]. simpl. apply nth_error_Some. congruence. }
      destruct (Forall2_In_l _ _ _ _ Hcands Hin) as (s' & Hin' & Hs'').
      congruence. }
  split.
  { rewrite <- (Forall2_map_eq (fun i s => iloc data i = Ok s)
                  (fun i => nth i d (euclidean sqrt c [])) (distance_to sqrt G c)
                  (np_argsort d) cands); auto.
    - apply np_argsort_sorted.
    - intros i s His. apply iloc_Ok in His. destruct His as [<- _].
      unfold distance_to, d. apply map_nth. }
  intros n.
  destruct (select_loop_take seed_songs data n (np_argsort d) [] Hrange)
    as (cands' & Hcands' & Hloop).
  assert (cands' = cands) as ->.
  { clear - Hcands Hcands'. revert cands' Hcands'.
    induction Hcands as [| j x js xs Hx _ IH]; intros cands' Hc'; inversion Hc'; subst.
    - reflexivity.
    - f_equal; [congruence | auto]. }
  unfold recommend_songs. rewrite Hmean. cbn [bind].
  unfold select. rewrite Hscale. cbn [bind]. rewrite Hrank. cbn [bind].
  rewrite Hloop. reflexivity.
Qed.

Section TakeLoopMore.

Variable seed_songs : list string.

(** Whatever was passed over is no nearer than what was taken. *)
Lemma take_loop_nearest (n : Z) (key : Series -> Q) (cands rec_songs : list Series) :
  StronglySorted Qle (map key (rec_songs ++ cands)) ->
  forall s, In s cands ->
            ~ In (name (values s)) seed_songs ->
            ~ In (name (values s)) (names (take_loop seed_songs n cands rec_songs)) ->
            Forall (fun t => key t <= key s) (take_loop seed_songs n cands rec_songs).
Proof.
  assert (forall (l1 l2 : list Series) s,
             StronglySorted Qle (map key (l1 ++ l2)) -> In s l2 ->
             Forall (fun t => key t <= key s) l1) as Hbefore.
  { induction l1 as [| y l1 IHl]; intros l2 s H Hs; simpl in *.
    - constructor.
    - inversion H as [| ? ? Hs' Hall]; subst. constructor; eauto.
      rewrite Forall_forall in Hall. apply Hall.
      apply in_map. apply in_or_app. now right. }
  assert (forall (l1 l2 : list Series) x,
             StronglySorted Qle (map key (l1 ++ x :: l2)) ->
             StronglySorted Qle (map key (l1 ++ l2))) as Hdrop.
  { induction l1 as [| y l1 IHl]; intros l2 x H; simpl in *.
    - now inversion H.
    - inversion H as [| ? ? Hs' Hall]; subst. constructor; eauto.
      rewrite map_app in *. simpl in Hall. rewrite Forall_app in *.
      destruct Hall as [H1 H2]. split; auto. now inversion H2. }
  revert rec_songs. induction cands as [| row cands IH]; intros rec_songs Hsorted s Hin Hseed Hout.
  - destruct Hin.
  - simpl in *.
    assert (StronglySorted Qle (map key ((rec_songs ++ [row]) ++ cands))) as Hsorted'.
    { now rewrite <- app_assoc. }
    destruct (str_in (name (values row)) seed_songs) eqn:Hrow; simpl in *.
    + destruct Hin as [<- | Hin].
      * apply str_in_In in Hrow. contradiction.
      * apply IH; eauto.
    + destruct (str_in (name (values row)) (names rec_songs)) eqn:Hdup; simpl in *.
      * destruct Hin as [<- | Hin].
        -- exfalso. apply Hout. apply str_in_In in Hdup.
           destruct (take_loop_extends seed_songs n cands rec_songs) as (picked & -> & _).
           unfold names in *. rewrite map_app. apply in_or_app. now left.
        -- apply IH; eauto.
      * destruct (Z.of_nat (length (rec_songs ++ [row])) =? n)%Z.
        -- destruct Hin as [<- | Hin].
           ++ exfalso. apply Hout. unfold names. rewrite map_app.
              apply in_or_app. right. simpl. auto.
           ++ eapply Hbefore; eauto.
        -- destruct Hin as [<- | Hin].
           ++ exfalso. apply Hout.
              destruct (take_loop_extends seed_songs n cands (rec_songs ++ [row]))
                as (picked & -> & _).
              unfold names. rewrite !map_app. apply in_or_app. left.
              apply in_or_app. right. simpl. auto.
           ++ apply IH; eauto.
Qed.

(** A larger count only adds to the end of the selection. *)
Lemma take_loop_prefix (n n' : Z) (cands rec_songs : list Series) :
  (n <= n')%Z -> (Z.of_nat (length rec_songs) < n)%Z ->
  exists more,
    take_loop seed_songs n' cands rec_songs
    = take_loop seed_songs n cands rec_songs ++ more.
Proof.
  intros Hnn. revert rec_songs.
  induction cands as [| row cands IH]; intros rec_songs Hlen; simpl.
  - exists []. now rewrite app_nil_r.
  - destruct (negb _ && negb _); [| now apply IH].
    destruct (Z.eqb_spec (Z.of_nat (length (rec_songs ++ [row]))) n) as [He | Hne].
    + destruct (Z.eqb_spec (Z.of_nat (length (rec_songs ++ [row]))) n') as [He' | Hne'].
      * exists []. now rewrite app_nil_r.
      * destruct (take_loop_extends seed_songs n' cands (rec_songs ++ [row]))
          as (picked & -> & _). eauto.
    + assert (Z.of_nat (length (rec_songs ++ [row])) < n)%Z as Hlt.
      { rewrite length_app in *. simpl in *. lia. }
      destruct (Z.eqb_spec (Z.of_nat (length (rec_songs ++ [row]))) n') as [He' | Hne'];
        [lia |].
      now apply IH.
Qed.

End TakeLoopMore.

Lemma demo_resolvable_yesterday : resolvable demo ["yesterday"].
Proof. intros song [<- | []]. vm_compute. discriminate. Qed.

Lemma demo_offers_imagine : exists r, In r demo /\ ~ In (name r) ["yesterday"].
Proof.
  exists (track "imagine" "John Lennon" (4 # 10) 1971). split.
  - simpl. auto.
  - intros [H | []]. discriminate.
Qed.

(** ** Nearest first *)

(** X1: the records returned are the nearest the catalog can offer.  A
    catalog row whose name is neither a seed name nor the name of a returned
    record is at least as far from the normalized seed center as every
    returned row. *)
Theorem recommend_songs_nearest_first (sqrt : Q -> Q) (data : DataFrame) (G : Globals)
    (seed_songs : list string) (n : Z) :
  startup sqrt data = Ok G ->
  seed_songs <> [] ->
  resolvable data seed_songs ->
  exists c rec_songs,
    query_center G seed_songs data = Ok (Some [c]) /\
    recommend_songs sqrt G seed_songs data n = to_dict_records rec_songs /\
    (forall s, In s rec_songs -> iloc data (label s) = Ok s) /\
    forall s, iloc data (label s) = Ok s ->
              ~ In (name (values s)) seed_songs ->
              ~ In (name (values s)) (names rec_songs) ->
              Forall (fun t => distance_to sqrt G c t <= distance_to sqrt G c s) rec_songs.
Proof.
  intros Hstart Hne Hres.
  destruct (engine_run_all sqrt data G seed_songs Hstart Hne Hres)
    as (m & c & cands & _ & _ & _ & Hcenter & Hcands & Hsorted & Hrec).
  exists c, (take_loop seed_songs n cands []).
  split; [exact Hcenter |]. split; [apply Hrec |]. split.
  - intros s Hs. apply Hcands.
    destruct (take_loop_extends seed_songs n cands []) as (picked & Hp & Hall).
    rewrite Hp in Hs. simpl in Hs. rewrite Forall_forall in Hall. now apply Hall.
  - intros s Hs Hseed Hout. apply take_loop_nearest; auto. now apply Hcands.
Qed.

Lemma recommend_songs_nearest_first_witness :
  startup Qsqrt demo = Ok demo_globals /\
  ["yesterday"] <> [] /\
  resolvable demo ["yesterday"] /\
  exists c rec_songs,
    query_center demo_globals ["yesterday"] demo = Ok (Some [c]) /\
    recommend_songs Qsqrt demo_globals ["yesterday"] demo 2 = to_dict_records rec_songs /\
    (forall s, In s rec_songs -> iloc demo (label s) = Ok s) /\
    forall s, iloc demo (label s) = Ok s ->
              ~ In (name (values s)) ["yesterday"] ->
              ~ In (name (values s)) (names rec_songs) ->
              Forall (fun t => distance_to Qsqrt demo_globals c t
                               <= distance_to Qsqrt demo_globals c s) rec_songs.
Proof.
  split; [exact demo_fitted |]. split; [discriminate |].
  split; [exact demo_resolvable_yesterday |].
  apply (recommend_songs_nearest_first Qsqrt demo demo_globals ["yesterday"] 2);
    [exact demo_fitted | discriminate | exact demo_resolvable_yesterday].
Defined.

(** ** How many records *)

(** X2: asking for more only adds to the end.  For counts [1 <= n <= n'] the
    records returned for [n] are the first of those returned for [n']. *)
Theorem recommend_songs_more_extends (sqrt : Q -> Q) (data : DataFrame) (G : Globals)
    (seed_songs : list string) (n n' : Z) :
  startup sqrt data = Ok G ->
  seed_songs <> [] ->
  resolvable data seed_songs ->
  (exists r, In r data /\ ~ In (name r) seed_songs) ->
  (1 <= n)%Z -> (n <= n')%Z ->
  exists recs more,
    recommend_songs sqrt G seed_songs data n = Ok recs /\
    recommend_songs sqrt G seed_songs data n' = Ok (recs ++ more).
Proof.
  intros Hstart Hne Hres (r0 & Hr0 & Hout) Hn Hnn.
  destruct (engine_run_all sqrt data G seed_songs Hstart Hne Hres)
    as (m & c & cands & _ & _ & _ & _ & Hcands & _ & Hrec).
  rewrite !Hrec.
  destruct (take_loop_prefix seed_songs n n' cands [] Hnn) as [more Hmore];
    [simpl; lia |].
  rewrite Hmore.
  destruct (take_loop seed_songs n cands []) as [| s rec_songs] eqn:Hloop.
  - exfalso. apply Hout.
    apply (nothing_selected seed_songs n data cands); auto.
    intros r Hr. apply In_nth_error in Hr. destruct Hr as [i Hi].
    exists {| label := i; values := r |}. split; auto.
    apply Hcands. apply iloc_Ok. auto.
  - exists (map metadata (s :: rec_songs)), (map metadata more).
    split; [reflexivity |]. simpl. rewrite map_app. reflexivity.
Qed.

Lemma recommend_songs_more_extends_witness :
  startup Qsqrt demo = Ok demo_globals /\
  ["yesterday"] <> [] /\
  resolvable demo ["yesterday"] /\
  (exists r, In r demo /\ ~ In (name r) ["yesterday"]) /\
  (1 <= 1)%Z /\ (1 <= 3)%Z /\
  exists recs more,
    recommend_songs Qsqrt demo_globals ["yesterday"] demo 1 = Ok recs /\
    recommend_songs Qsqrt demo_globals ["yesterday"] demo 3 = Ok (recs ++ more).
Proof.
  split; [exact demo_fitted |]. split; [discriminate |].
  split; [exact demo_resolvable_yesterday |]. split; [exact demo_offers_imagine |].
  split; [lia |]. split; [lia |].
  apply (recommend_songs_more_extends Qsqrt demo demo_globals ["yesterday"] 1 3);
    [exact demo_fitted | discriminate | exact demo_resolvable_yesterday
     | exact demo_offers_imagine | lia | lia].
Defined.

(** X3: when the catalog offers at least [n >= 1] names that are not seed
    names, exactly [n] records are returned. *)
Theorem recommend_songs_exactly_n (sqrt : Q -> Q) (data : DataFrame) (G : Globals)
    (seed_songs : list string) (n : Z) :
  startup sqrt data = Ok G ->
  seed_songs <> [] ->
  resolvable data seed_songs ->
  (1 <= n)%Z ->
  (n <= Z.of_nat (length (available data seed_songs)))%Z ->
  exists recs,
    recommend_songs sqrt G seed_songs data n = Ok recs /\
    Z.of_nat (length recs) = n.
Proof.
  intros Hstart Hne Hres Hn Havail.
  destruct (engine_run_all sqrt data G seed_songs Hstart Hne Hres)
    as (m & c & cands & _ & _ & _ & _ & Hcands & _ & Hrec).
  rewrite Hrec.
  pose proof (take_loop_NoDup seed_songs n cands [] (NoDup_nil _)) as Hnd.
  pose proof (take_loop_length seed_songs n cands []) as Hle.
  assert (Z.of_nat (length (take_loop seed_songs n cands [])) = n) as Hlen.
  { destruct (Z.eq_dec (Z.of_nat (length (take_loop seed_songs n cands []))) n)
      as [He | Hne']; [exact He | exfalso].
    pose proof (take_loop_exhausts seed_songs n cands [] (or_intror Hne')) as Hex.
    assert (incl (available data seed_songs) (names (take_loop seed_songs n cands [])))
      as Hincl.
    { intros nm Hnm. apply in_available in Hnm. destruct Hnm as [(r & Hr & <-) Hout].
      apply In_nth_error in Hr. destruct Hr as [i Hi].
      apply (Hex {| label := i; values := r |}); auto.
      apply Hcands. apply iloc_Ok. auto. }
    pose proof (NoDup_incl_length (NoDup_nodup _ _) Hincl) as Hlen'.
    unfold names in Hlen'. rewrite length_map in Hlen'.
    fold (available data seed_songs) in Hlen'.
    specialize (Hle ltac:(simpl; lia)). lia. }
  destruct (take_loop seed_songs n cands []) as [| s rec_songs].
  - simpl in Hlen. lia.
  - exists (map metadata (s :: rec_songs)). split; [reflexivity |].
    now rewrite length_map.
Qed.

Lemma recommend_songs_exactly_n_witness :
  startup Qsqrt demo = Ok demo_globals /\
  ["yesterday"] <> [] /\
  resolvable demo ["yesterday"] /\
  (1 <= 2)%Z /\
  (2 <= Z.of_nat (length (available demo ["yesterday"])))%Z /\
  exists recs,
    recommend_songs Qsqrt demo_globals ["yesterday"] demo 2 = Ok recs /\
    Z.of_nat (length recs) = 2%Z.
Proof.
  assert (2 <= Z.of_nat (length (available demo ["yesterday"])))%Z as Havail.
  { vm_compute. discriminate. }
  split; [exact demo_fitted |]. split; [discriminate |].
  split; [exact demo_resolvable_yesterday |]. split; [lia |]. split; [exact Havail |].
  apply (recommend_songs_exactly_n Qsqrt demo demo_globals ["yesterday"] 2);
    [exact demo_fitted | discriminate | exact demo_resolvable_yesterday | lia | exact Havail].
Defined.

(** X4: when the catalog offers fewer names than the count asked for, and at
    least one, the call still succeeds and returns fewer records than asked:
    one for each name of the catalog that is not a seed name, no name twice. *)
Theorem recommend_songs_short_catalog (sqrt : Q -> Q) (data : DataFrame) (G : Globals)
    (seed_songs : list string) (n : Z) :
  startup sqrt data = Ok G ->
  seed_songs <> [] ->
  resolvable data seed_songs ->
  (Z.of_nat (length (available data seed_songs)) < n)%Z ->
  available data seed_songs <> [] ->
  exists recs,
    recommend_songs sqrt G seed_songs data n = Ok recs /\
    Permutation (map song_name recs) (available data seed_songs) /\
    NoDup (map song_name recs) /\
    (Z.of_nat (length recs) < n)%Z.
Proof.
  intros Hstart Hne Hres Hn Hsome.
  destruct (recommend_songs_all_available sqrt data G seed_songs n Hstart Hne Hres Hn Hsome)
    as (recs & Hrec & Hperm).
  exists recs. split; [exact Hrec |]. split; [exact Hperm |]. split.
  - apply (Permutation_NoDup (Permutation_sym Hperm)). apply NoDup_nodup.
  - apply Permutation_length in Hperm. rewrite length_map in Hperm. lia.
Qed.

Lemma recommend_songs_short_catalog_witness :
  startup Qsqrt demo = Ok demo_globals /\
  ["yesterday"] <> [] /\
  resolvable demo ["yesterday"] /\
  (Z.of_nat (length (available demo ["yesterday"])) < 5)%Z /\
  available demo ["yesterday"] <> [] /\
  exists recs,
    recommend_songs Qsqrt demo_globals ["yesterday"] demo 5 = Ok recs /\
    Permutation (map song_name recs) (available demo ["yesterday"]) /\
    NoDup (map song_name recs) /\
    (Z.of_nat (length recs) < 5)%Z.
Proof.
  assert (Z.of_nat (length (available demo ["yesterday"])) < 5)%Z as Hfew.
  { vm_compute. reflexivity. }
  assert (available demo ["yesterday"] <> []) as Hsome.
  { vm_compute. discriminate. }
  split; [exact demo_fitted |]. split; [discriminate |].
  split; [exact demo_resolvable_yesterday |]. split; [exact Hfew |]. split; [exact Hsome |].
  apply (recommend_songs_short_catalog Qsqrt demo demo_globals ["yesterday"] 5);
    [exact demo_fitted | discriminate | exact demo_resolvable_yesterday
     | exact Hfew | exact Hsome].
Defined.

(** ** Nothing made up *)

Lemma select_loop_rows (seed_songs : list string) (data : DataFrame) (n : Z)
    (index : list nat) (rec_songs selected : list Series) :
  select_loop seed_songs data n index rec_songs = Ok selected ->
  Forall (fun s => iloc data (label s) = Ok s) rec_songs ->
  Forall (fun s => iloc data (label s) = Ok s) selected.
Proof.
  revert rec_songs. induction index as [| i index IH]; intros rec_songs H Hacc; simpl in H.
  - now injection H as <-.
  - inv_bind H as row Hrow.
    assert (Forall (fun s => iloc data (label s) = Ok s) (rec_songs ++ [row])) as Hacc'.
    { apply Forall_app. split; auto. constructor; [| constructor].
      pose proof Hrow as Hl. apply iloc_Ok in Hl. destruct Hl as [-> _]. exact Hrow. }
    destruct (negb _ && negb _); [| eauto].
    destruct (Z.of_nat _ =? n)%Z; [| eauto].
    now injection H as <-.
Qed.

(** X5: whatever the arguments, a record that [recommend_songs] returns is
    the name, artists and year of a row of the catalog it was given. *)
Theorem recommend_songs_only_catalog_rows (sqrt : Q -> Q) (G : Globals)
    (seed_songs : list string) (data : DataFrame) (n : Z) (recs : list Song) :
  recommend_songs sqrt G seed_songs data n = Ok recs ->
  forall r, In r recs ->
            exists row, In row data /\
                        song_name r = name row /\
                        song_artists r = artists row /\
                        song_year r = year row.
Proof.
  unfold recommend_songs. intros H r Hr.
  inv_bind H as center Hcenter.
  destruct center as [song_center |]; [| injection H as <-; destruct Hr].
  inv_bind H as rec_songs Hsel.
  unfold select in Hsel.
  inv_bind Hsel as c Hc. inv_bind Hsel as index Hindex.
  apply select_loop_rows in Hsel; [| constructor].
  destruct rec_songs as [| s rec_songs]; [discriminate |].
  injection H as <-.
  change (In r (map metadata (s :: rec_songs))) in Hr.
  apply in_map_iff in Hr. destruct Hr as (x & <- & Hx).
  rewrite Forall_forall in Hsel. specialize (Hsel x Hx).
  apply iloc_Ok in Hsel. destruct Hsel as [_ Hnth].
  exists (values x). split; [now apply nth_error_In in Hnth | auto].
Qed.

Lemma recommend_songs_only_catalog_rows_witness :
  recommend_songs Qsqrt demo_globals ["hello"] demo 1
  = Ok [{| song_name := "Hello"; song_artists := "Adele"; song_year := 2015 |}] /\
  forall r, In r [{| song_name := "Hello"; song_artists := "Adele"; song_year := 2015 |}] ->
            exists row, In row demo /\
                        song_name r = name row /\
                        song_artists r = artists row /\
                        song_year r = year row.
Proof.
  assert (recommend_songs Qsqrt demo_globals ["hello"] demo 1
          = Ok [{| song_name := "Hello"; song_artists := "Adele"; song_year := 2015 |}])
    as Hrun.
  { vm_compute. reflexivity. }
  split; [exact Hrun |].
  apply (recommend_songs_only_catalog_rows Qsqrt demo_globals ["hello"] demo 1 _ Hrun).
Defined.

(** ** The song center *)

Lemma unresolved_or_resolvable (data : DataFrame) (seed_songs : list string) :
  resolvable data seed_songs
  \/ exists song, In song seed_songs /\ get_song_data song data = Ok None.
Proof.
  induction seed_songs as [| song seeds IH].
  - left. intros song [].
  - destruct (get_song_data_total song data) as [[s |] Hs].
    + destruct IH as [IH | (bad & Hin & Hbad)].
      * left. intros x [<- | Hx]; [congruence | now apply IH].
      * right. exists bad. simpl. auto.
    + right. exists song. simpl. auto.
Qed.

(** X6: on a catalog that has all the numeric columns, [get_mean_vector]
    never raises, and it returns [None] exactly when the lookup misses one of
    the songs. *)
Theorem get_mean_vector_None_iff (data : DataFrame) (song_list : list string) :
  Forall (fun r => length (nums r) = 15%nat) data ->
  (exists center, get_mean_vector song_list data = Ok center) /\
  (get_mean_vector song_list data = Ok None <->
   exists song, In song song_list /\ get_song_data song data = Ok None).
Proof.
  change 15%nat with width. intros Hdata.
  destruct (unresolved_or_resolvable data song_list) as [Hres | Hbad].
  - destruct (resolvable_Forall2 _ _ Hres) as [resolved Hresolved].
    unfold get_mean_vector.
    rewrite (collect_vectors_resolved _ _ _ [] Hdata Hresolved). cbn [bind].
    split; [eauto |]. split; [discriminate |].
    intros (song & Hin & Hmiss). exfalso. now apply (Hres song).
  - unfold get_mean_vector.
    rewrite (collect_vectors_unresolved _ _ [] Hdata Hbad). cbn [bind].
    split; [eauto |]. split; auto.
Qed.

Lemma demo_has_number_cols : Forall (fun r => length (nums r) = 15%nat) demo.
Proof. repeat constructor. Qed.

Lemma get_mean_vector_None_iff_witness :
  Forall (fun r => length (nums r) = 15%nat) demo /\
  (exists center, get_mean_vector ["hello"; "unknown-song"] demo = Ok center) /\
  (get_mean_vector ["hello"; "unknown-song"] demo = Ok None <->
   exists song, In song ["hello"; "unknown-song"] /\ get_song_data song demo = Ok None).
Proof.
  split; [exact demo_has_number_cols |].
  apply (get_mean_vector_None_iff demo ["hello"; "unknown-song"] demo_has_number_cols).
Defined.

(** A row through both scalers, component by component. *)
Lemma nth_scaled_row (data : DataFrame) (G : Globals) (x : vec) (j : nat) :
  fitted data G -> length x = width -> (j < width)%nat ->
  nth j (StandardScaler.transform_row (standard_scaler G)
           (MinMaxScaler.transform_row (min_max_scaler G) x)) 0
  = (nth j x 0 * nth j (MinMaxScaler.scale_ (min_max_scaler G)) 0
     + nth j (MinMaxScaler.min_ (min_max_scaler G)) 0
     - nth j (StandardScaler.mean_ (standard_scaler G)) 0)
    / nth j (StandardScaler.scale_ (standard_scaler G)) 0.
Proof.
  intros HG Hx Hj.
  unfold StandardScaler.transform_row, MinMaxScaler.transform_row.
  pose proof (fitted_mm_scale _ _ HG) as H1. pose proof (fitted_mm_min _ _ HG) as H2.
  pose proof (fitted_ss_mean _ _ HG) as H3. pose proof (fitted_ss_scale _ _ HG) as H4.
  rewrite (nth_map2 Qdiv _ _ j 0 0 0);
    [| rewrite !length_map2, Hx, H1, H2, H3, !Nat.min_id; exact Hj | rewrite H4; exact Hj].
  rewrite (nth_map2 Qminus _ _ j 0 0 0);
    [| rewrite !length_map2, Hx, H1, H2, !Nat.min_id; exact Hj | rewrite H3; exact Hj].
  rewrite (nth_map2 Qplus _ _ j 0 0 0);
    [| rewrite !length_map2, Hx, H1, !Nat.min_id; exact Hj | rewrite H2; exact Hj].
  rewrite (nth_map2 Qmult _ _ j 0 0 0); [| rewrite Hx; exact Hj | rewrite H1; exact Hj].
  reflexivity.
Qed.

(** The center of a resolved request, component by component. *)
Lemma center_components (sqrt : Q -> Q) (data : DataFrame) (G : Globals)
    (seed_songs : list string) (resolved : list Series) :
  startup sqrt data = Ok G ->
  seed_songs <> [] ->
  Forall2 (fun song s => get_song_data song data = Ok (Some s)) seed_songs resolved ->
  exists m,
    get_mean_vector seed_songs data = Ok (Some (array1 m)) /\
    query_center G seed_songs data
    = Ok (Some [StandardScaler.transform_row (standard_scaler G)
                  (MinMaxScaler.transform_row (min_max_scaler G) m)]) /\
    length m = width /\
    forall j, (j < width)%nat ->
      nth j m 0
      == Qsum (map (fun s => nth j (nums (values s)) 0) resolved) / of_nat (length resolved).
Proof.
  intros Hstart Hne Hres.
  pose proof (startup_fitted _ _ _ Hstart) as HG.
  destruct (get_mean_vector_resolved _ _ _ (fitted_data _ _ HG) Hne Hres)
    as (r & rest & Hrows & Hrect & Hmean).
  inversion Hrect as [| ? ? Hr Hrest]; subst.
  assert (rectangular (length r) rest) as Hrest' by now rewrite Hr.
  assert (length (col_mean r rest) = width) as Hm by now rewrite length_col_mean.
  exists (col_mean r rest). split; [exact Hmean |]. split.
  { unfold query_center. rewrite Hmean. cbn [bind].
    rewrite (scale_center_Ok _ _ _ HG Hm). reflexivity. }
  split; [exact Hm |].
  intros j Hj. rewrite nth_col_mean by (auto; lia).
  unfold column, vec in *. rewrite <- Hrows, map_map, length_map. reflexivity.
Qed.

(** X8: the query is scaled as the catalog was.  The normalized center of a
    single seed is, component by component, the row of the scaled catalog
    matrix that the seed resolved to. *)
Theorem single_seed_center_is_its_row (sqrt : Q -> Q) (data : DataFrame) (G : Globals)
    (song : string) (s : Series) :
  startup sqrt data = Ok G ->
  get_song_data song data = Ok (Some s) ->
  exists c,
    query_center G [song] data = Ok (Some [c]) /\
    length c = 15%nat /\
    length (nth (label s) (scaled_normalized_data G) []) = 15%nat /\
    forall j, (j < 15)%nat ->
              nth j c 0 == nth j (nth (label s) (scaled_normalized_data G) []) 0.
Proof.
  change 15%nat with width. intros Hstart Hs.
  pose proof (startup_fitted _ _ _ Hstart) as HG.
  destruct (center_components sqrt data G [song] [s] Hstart) as (m & _ & Hcenter & Hm & Hcomp);
    [discriminate | repeat constructor; exact Hs |].
  pose proof (get_song_data_nth _ _ _ Hs) as Hnth.
  assert (length (nums (values s)) = width) as Hx.
  { pose proof (fitted_data _ _ HG) as Hd. rewrite Forall_forall in Hd.
    apply Hd. now apply nth_error_In in Hnth. }
  assert (nth (label s) (scaled_normalized_data G) []
          = StandardScaler.transform_row (standard_scaler G)
              (MinMaxScaler.transform_row (min_max_scaler G) (nums (values s)))) as Hrow.
  { destruct (startup_steps _ _ _ Hstart) as (_ & _ & _ & ->).
    rewrite !map_map.
    assert (label s < length data)%nat as Hlt by (apply nth_error_Some; congruence).
    rewrite (@nth_map_in Row vec _ data (label s) (values s) []) by exact Hlt.
    now rewrite (nth_error_nth _ _ _ Hnth). }
  eexists. split; [exact Hcenter |]. split.
  { apply length_ss_transform_row; try apply HG.
    apply length_mm_transform_row; auto; apply HG. }
  rewrite Hrow. split.
  { apply length_ss_transform_row; try apply HG.
    apply length_mm_transform_row; auto; apply HG. }
  intros j Hj. rewrite !(nth_scaled_row data G) by auto.
  assert (nth j m 0 == nth j (nums (values s)) 0) as Heq.
  { rewrite (Hcomp j Hj). simpl. rewrite Qsum_cons. unfold Qsum, of_nat. simpl.
    unfold Qdiv. change (/ inject_Z 1) with 1. ring. }
  rewrite Heq. reflexivity.
Qed.

Lemma single_seed_center_is_its_row_witness :
  startup Qsqrt demo = Ok demo_globals /\
  get_song_data "hello" demo
  = Ok (Some {| label := 1; values := track "Hello" "Adele" (9 # 10) 2015 |}) /\
  exists c,
    query_center demo_globals ["hello"] demo = Ok (Some [c]) /\
    length c = 15%nat /\
    length (nth 1 (scaled_normalized_data demo_globals) []) = 15%nat /\
    forall j, (j < 15)%nat ->
              nth j c 0 == nth j (nth 1 (scaled_normalized_data demo_globals) []) 0.
Proof.
  split; [exact demo_fitted |]. split; [reflexivity |].
  apply (single_seed_center_is_its_row Qsqrt demo demo_globals "hello"
           {| label := 1; values := track "Hello" "Adele" (9 # 10) 2015 |} demo_fitted).
  reflexivity.
Defined.

(** ** The fitted scalers *)

(** X11: the fit at startup succeeds exactly on the catalogs that have a row
    and, in every row, all 15 numeric columns; on the empty catalog it
    raises [ValueError]. *)
Theorem startup_succeeds_iff (sqrt : Q -> Q) (data : DataFrame) :
  ((exists G, startup sqrt data = Ok G) <->
   (data <> [] /\ Forall (fun r => length (nums r) = 15%nat) data))
  /\ startup sqrt [] = Raise ValueError.
Proof.
  change 15%nat with width. split; [| reflexivity]. split.
  - intros [G HG]. apply startup_fitted in HG. split; apply HG.
  - intros [Hne Hdata]. now apply startup_Ok.
Qed.

(** * The prompt and the button *)

(** ** From a radio label back to the name *)

Ltac case_ascii_dec :=
  repeat match goal with
         | |- context [ascii_dec ?x ?y] => destruct (ascii_dec x y); try congruence; subst
         end.

Lemma prefix_by_window (c : ascii) (nm rest : string) :
  String.prefix " by " (String c (nm ++ " by " ++ rest))
  = String.prefix " by " (String c (nm ++ " ")).
Proof.
  destruct nm as [| a [| b [| d nm]]]; cbn [String.prefix String.append];
    case_ascii_dec; try reflexivity.
  match goal with
  | |- String.prefix _ ?x = String.prefix _ ?y => destruct x; destruct y; reflexivity
  end.
Qed.

(** The name is read back from the label of a radio button exactly when
    " by " occurs nowhere in the name followed by a space. *)
Lemma split0_radio_label (nm art yr : string) :
  split0 " by " (radio_label nm art yr) = nm <-> occurs " by " (nm ++ " ") = false.
Proof.
  unfold radio_label. generalize (art ++ " (" ++ yr ++ ")")%string. intros rest.
  remember (" by " ++ rest)%string as tail eqn:Htail.
  induction nm as [| c nm IH].
  - subst tail. split; intros _; [reflexivity | destruct rest; reflexivity].
  - cbn [String.append split0 occurs].
    replace (String.prefix " by " (String c (nm ++ tail)))
      with (String.prefix " by " (String c (nm ++ " ")))
      by (subst tail; symmetry; apply prefix_by_window).
    destruct (String.prefix " by " (String c (nm ++ " "))) eqn:Hpre.
    + simpl. split; discriminate.
    + rewrite orb_false_l, <- IH. split.
      * now intros [= ->].
      * intros ->. reflexivity.
Qed.

Lemma radio_label_not_empty (nm art yr : string) :
  String.eqb (radio_label nm art yr) "" = false.
Proof. unfold radio_label. destruct nm; reflexivity. Qed.

Lemma split_lines_no_newline (s : string) :
  existsb (Ascii.eqb newline) (list_ascii_of_string s) = false ->
  split_lines s = [s].
Proof.
  induction s as [| c s IH]; cbn [split_lines list_ascii_of_string existsb];
    [reflexivity |].
  intros H. apply orb_false_elim in H. destruct H as [Hc Hs].
  rewrite Ascii.eqb_sym in Hc. rewrite Hc, (IH Hs). reflexivity.
Qed.

(** A name that survives the prompt comes out of it as the one name handed
    to the button. *)
Lemma prompt_reads_name (nm art yr : string) :
  survives_prompt nm = true ->
  input_song_names (song_names_after_prompt (Some (radio_label nm art yr))) = [nm].
Proof.
  unfold survives_prompt. intros H.
  apply andb_prop in H. destruct H as [H Hnl].
  apply andb_prop in H. destruct H as [H Hstrip].
  apply andb_prop in H. destruct H as [Hne Hby].
  apply negb_true_iff in Hne, Hby, Hnl. apply String.eqb_eq in Hstrip.
  unfold song_names_after_prompt. rewrite radio_label_not_empty.
  rewrite (proj2 (split0_radio_label nm art yr) Hby).
  unfold input_song_names. rewrite Hne, Hstrip.
  now apply split_lines_no_newline.
Qed.

(** X12: a song whose name holds " by " cannot be picked at the prompt
    under its own name: what the prompt keeps of the label of its radio
    button is not the name. *)
Theorem prompt_cuts_name_at_by (nm art yr : string) :
  occurs " by " (nm ++ " ") = true ->
  song_names_after_prompt (Some (radio_label nm art yr)) <> nm.
Proof.
  intros Hby Heq. unfold song_names_after_prompt in Heq.
  rewrite radio_label_not_empty in Heq.
  apply split0_radio_label in Heq. congruence.
Qed.

Lemma prompt_cuts_name_at_by_witness :
  occurs " by " ("Stand by Me" ++ " ") = true /\
  song_names_after_prompt (Some (radio_label "Stand by Me" "Ben E. King" "1961"))
  <> "Stand by Me".
Proof.
  split; [reflexivity |].
  apply (prompt_cuts_name_at_by "Stand by Me" "Ben E. King" "1961"). reflexivity.
Defined.

(** ** What the lookup finds *)

(** X13: every name stored in the catalog is found once it is lowercased:
    the lookup returns a row of the catalog, under its label, whose
    lowercased name is the lowercased name asked for. *)
Theorem get_song_data_finds_stored (data : DataFrame) (r : Row) :
  In r data ->
  exists s,
    get_song_data (str_lower (name r)) data = Ok (Some s) /\
    nth_error data (label s) = Some (values s) /\
    str_lower (name (values s)) = str_lower (name r).
Proof.
  intros Hr. rewrite get_song_data_hd. unfold select_mask, rows.
  pose proof (label_rows_from data 0
                (fun x => String.eqb (str_lower (name x)) (str_lower (name r)))) as H.
  cbv beta in H.
  destruct (hd_error _) as [s |].
  - destruct H as (l1 & l2 & Hd & Hl & Hs & _).
    exists s. split; [reflexivity |]. split.
    + rewrite Hd, Hl. simpl. rewrite nth_error_app2, Nat.sub_diag by lia. reflexivity.
    + now apply String.eqb_eq.
  - specialize (H r Hr). rewrite String.eqb_refl in H. discriminate.
Qed.

Lemma get_song_data_finds_stored_witness :
  In (track "hello" "Lionel Richie" (6 # 10) 1984) demo /\
  exists s,
    get_song_data (str_lower (name (track "hello" "Lionel Richie" (6 # 10) 1984))) demo
    = Ok (Some s) /\
    nth_error demo (label s) = Some (values s) /\
    str_lower (name (values s))
    = str_lower (name (track "hello" "Lionel Richie" (6 # 10) 1984)).
Proof.
  assert (In (track "hello" "Lionel Richie" (6 # 10) 1984) demo) as Hin.
  { simpl. auto. }
  split; [exact Hin |].
  apply (get_song_data_finds_stored demo _ Hin).
Defined.

(** ** The button *)

Lemma lower_ascii_idempotent (c : ascii) : lower_ascii (lower_ascii c) = lower_ascii c.
Proof. destruct c as [[] [] [] [] [] [] [] []]; reflexivity. Qed.

Lemma str_lower_idempotent (s : string) : str_lower (str_lower s) = str_lower s.
Proof.
  induction s as [| c s IH]; simpl; [reflexivity |].
  now rewrite lower_ascii_idempotent, IH.
Qed.

Lemma str_lower_empty (s : string) : String.eqb (str_lower s) "" = String.eqb s "".
Proof. destruct s; reflexivity. Qed.

Lemma seeds_of_idempotent (names0 : list string) : seeds_of (seeds_of names0) = seeds_of names0.
Proof.
  unfold seeds_of. induction names0 as [| nm names0 IH]; simpl; [reflexivity |].
  destruct (String.eqb (str_lower nm) "") eqn:Hnm; simpl; [exact IH |].
  rewrite str_lower_idempotent, Hnm. simpl. now rewrite IH.
Qed.

(** X14: the button reads the names entered without regard to case or to
    blank entries: it answers the names as it answers their lowercased,
    non-blank ones. *)
Theorem on_recommend_normalizes (sqrt : Q -> Q) (input : list string) (n : Z) (st : State) :
  on_recommend sqrt input n st
  = on_recommend sqrt
      (filter (fun song => negb (String.eqb song "")) (map str_lower input)) n st.
Proof.
  unfold on_recommend. cbv zeta.
  fold (seeds_of input). fold (seeds_of (seeds_of input)).
  now rewrite seeds_of_idempotent.
Qed.

(** X15: one name entered that the catalog does not have, and the button
    answers with the warning that no recommendation is available, whatever
    else was entered. *)
Theorem on_recommend_unknown_song (sqrt : Q -> Q) (data : DataFrame) (G : Globals)
    (input : list string) (n : Z) :
  startup sqrt data = Ok G ->
  (exists nm, In nm input /\ nm <> "" /\ get_song_data (str_lower nm) data = Ok None) ->
  on_recommend sqrt input n {| st_data := data; st_globals := G |}
  = Ok (warning "No recommendations available based on the provided songs.").
Proof.
  intros Hstart (nm & Hin & Hne & Hmiss).
  pose proof (startup_fitted _ _ _ Hstart) as HG.
  unfold on_recommend. cbv zeta. fold (seeds_of input).
  assert (In (str_lower nm) (seeds_of input)) as Hseed.
  { unfold seeds_of. apply filter_In. split; [now apply in_map |].
    rewrite str_lower_empty. apply negb_true_iff. now apply String.eqb_neq. }
  destruct (seeds_of input) as [| seed seeds] eqn:Hseeds; [destruct Hseed |].
  cbn [st_data st_globals].
  unfold recommend_songs, get_mean_vector.
  rewrite (collect_vectors_unresolved data (seed :: seeds) [] (fitted_data _ _ HG));
    [reflexivity |].
  exists (str_lower nm). auto.
Qed.

Lemma on_recommend_unknown_song_witness :
  startup Qsqrt demo = Ok demo_globals /\
  (exists nm, In nm ["Hello"; "Unknown Song"] /\ nm <> "" /\
              get_song_data (str_lower nm) demo = Ok None) /\
  on_recommend Qsqrt ["Hello"; "Unknown Song"] 5
    {| st_data := demo; st_globals := demo_globals |}
  = Ok (warning "No recommendations available based on the provided songs.").
Proof.
  assert (exists nm, In nm ["Hello"; "Unknown Song"] /\ nm <> "" /\
                     get_song_data (str_lower nm) demo = Ok None) as Hbad.
  { exists "Unknown Song". split; [simpl; auto |]. split; [discriminate | reflexivity]. }
  split; [exact demo_fitted |]. split; [exact Hbad |].
  apply (on_recommend_unknown_song Qsqrt demo demo_globals ["Hello"; "Unknown Song"] 5
           demo_fitted Hbad).
Defined.

(** ** From the prompt to the chart *)

Lemma stored_name_resolves (data : DataFrame) (r : Row) :
  In r data -> get_song_data (str_lower (name r)) data <> Ok None.
Proof.
  intros Hr. rewrite get_song_data_hd. unfold select_mask, rows.
  pose proof (label_rows_from data 0
                (fun x => String.eqb (str_lower (name x)) (str_lower (name r)))) as H.
  cbv beta in H.
  destruct (hd_error _) as [s |]; [discriminate |].
  specialize (H r Hr). rewrite String.eqb_refl in H. discriminate.
Qed.

Lemma recommend_songs_returns (sqrt : Q -> Q) (data : DataFrame) (G : Globals)
    (seed_songs : list string) (n : Z) :
  startup sqrt data = Ok G ->
  seed_songs <> [] ->
  resolvable data seed_songs ->
  (1 <= n)%Z ->
  (exists r, In r data /\ ~ In (name r) seed_songs) ->
  exists rec0 recs,
    recommend_songs sqrt G seed_songs data n = Ok (rec0 :: recs) /\
    (Z.of_nat (length (rec0 :: recs)) <= n)%Z.
Proof.
  intros Hstart Hne Hres Hn (r0 & Hr0 & Hout).
  destruct (engine_run sqrt data G seed_songs n Hstart Hne Hres)
    as (m & c & cands & _ & _ & _ & _ & Hrec & _ & Hall & _).
  rewrite Hrec.
  destruct (take_loop seed_songs n cands []) as [| s rec_songs] eqn:Hloop.
  - exfalso. apply Hout. eapply nothing_selected; eauto.
  - exists (metadata s), (map metadata rec_songs). split; [reflexivity |].
    change (metadata s :: map metadata rec_songs) with (map metadata (s :: rec_songs)).
    rewrite length_map, <- Hloop. apply take_loop_length. simpl. lia.
Qed.

(** X16: from the prompt to the chart.  For a catalog song whose name
    survives the prompt, picking its radio button hands the button that one
    name; pressing it with a count of at least one then shows a chart of
    between one and [n] records, provided some catalog name differs from
    the lowercased name picked. *)
Theorem picked_song_gets_chart (sqrt : Q -> Q) (data : DataFrame) (G : Globals)
    (r : Row) (yr : string) (n : Z) :
  startup sqrt data = Ok G ->
  In r data ->
  survives_prompt (name r) = true ->
  (1 <= n)%Z ->
  (exists r', In r' data /\ name r' <> str_lower (name r)) ->
  input_song_names (song_names_after_prompt (Some (radio_label (name r) (artists r) yr)))
  = [name r] /\
  exists rec0 recs,
    on_recommend sqrt
      (input_song_names
         (song_names_after_prompt (Some (radio_label (name r) (artists r) yr))))
      n {| st_data := data; st_globals := G |}
    = Ok (chart (rec0 :: recs)) /\
    (Z.of_nat (length (rec0 :: recs)) <= n)%Z.
Proof.
  intros Hstart Hr Hclean Hn (r' & Hr' & Hdiff).
  rewrite (prompt_reads_name _ _ _ Hclean). split; [reflexivity |].
  assert (String.eqb (name r) "" = false) as Hne.
  { unfold survives_prompt in Hclean.
    destruct (String.eqb (name r) ""); [discriminate | reflexivity]. }
  unfold on_recommend. cbv zeta. cbn [map filter st_data st_globals].
  rewrite str_lower_empty, Hne. cbn [negb].
  destruct (recommend_songs_returns sqrt data G [str_lower (name r)] n Hstart)
    as (rec0 & recs & Hrun & Hlen); try assumption.
  - discriminate.
  - intros song [<- | []]. now apply stored_name_resolves.
  - exists r'. split; [assumption |]. intros [H | []]. congruence.
  - exists rec0, recs. rewrite Hrun. split; [reflexivity | exact Hlen].
Qed.

Lemma picked_song_gets_chart_witness :
  startup Qsqrt demo = Ok demo_globals /\
  In (track "Hello" "Adele" (9 # 10) 2015) demo /\
  survives_prompt (name (track "Hello" "Adele" (9 # 10) 2015)) = true /\
  (1 <= 2)%Z /\
  (exists r', In r' demo /\ name r' <> str_lower (name (track "Hello" "Adele" (9 # 10) 2015))) /\
  input_song_names
    (song_names_after_prompt
       (Some (radio_label (name (track "Hello" "Adele" (9 # 10) 2015))
                (artists (track "Hello" "Adele" (9 # 10) 2015)) "2015")))
  = [name (track "Hello" "Adele" (9 # 10) 2015)] /\
  exists rec0 recs,
    on_recommend Qsqrt
      (input_song_names
         (song_names_after_prompt
            (Some (radio_label (name (track "Hello" "Adele" (9 # 10) 2015))
                     (artists (track "Hello" "Adele" (9 # 10) 2015)) "2015"))))
      2 {| st_data := demo; st_globals := demo_globals |}
    = Ok (chart (rec0 :: recs)) /\
    (Z.of_nat (length (rec0 :: recs)) <= 2)%Z.
Proof.
  assert (In (track "Hello" "Adele" (9 # 10) 2015) demo) as Hin.
  { simpl. auto. }
  assert (exists r', In r' demo
                     /\ name r' <> str_lower (name (track "Hello" "Adele" (9 # 10) 2015)))
    as Hother.
  { exists (track "imagine" "John Lennon" (4 # 10) 1971). split.
    - simpl. auto.
    - discriminate. }
  split; [exact demo_fitted |]. split; [exact Hin |]. split; [reflexivity |].
  split; [lia |]. split; [exact Hother |].
  apply (picked_song_gets_chart Qsqrt demo demo_globals
           (track "Hello" "Adele" (9 # 10) 2015) "2015" 2 demo_fitted Hin);
    [reflexivity | lia | exact Hother].
Defined.

(** * The charts *)

(** ** Rows at given positions *)

Lemma take_positions_app {A : Type} (l : list A) (p q : list nat) :
  take_positions l (p ++ q) = take_positions l p ++ take_positions l q.
Proof. unfold take_positions. apply flat_map_app. Qed.

Lemma take_positions_perm {A : Type} (l : list A) (p q : list nat) :
  Permutation p q -> Permutation (take_positions l p) (take_positions l q).
Proof.
  unfold take_positions.
  induction 1 as [| i p q _ IH | i j p | p q r _ IH1 _ IH2]; simpl.
  - constructor.
  - now apply Permutation_app_head.
  - rewrite !app_assoc. apply Permutation_app_tail, Permutation_app_comm.
  - eapply Permutation_trans; eauto.
Qed.

Lemma take_positions_all {A : Type} (l pre : list A) :
  take_positions (pre ++ l) (seq (length pre) (length l)) = l.
Proof.
  revert pre. induction l as [| a l IH]; intros pre; simpl; [reflexivity |].
  rewrite nth_error_app2, Nat.sub_diag by lia. simpl. f_equal.
  specialize (IH (pre ++ [a])). rewrite <- app_assoc, length_app in IH. simpl in IH.
  rewrite Nat.add_1_r in IH. exact IH.
Qed.

Lemma take_positions_length {A : Type} (l : list A) (p : list nat) :
  Forall (fun i => (i < length l)%nat) p -> length (take_positions l p) = length p.
Proof.
  induction 1 as [| i p Hi _ IH]; simpl; [reflexivity |].
  destruct (nth_error l i) eqn:Hnth.
  - simpl. now rewrite IH.
  - apply nth_error_None in Hnth. lia.
Qed.

Lemma take_positions_map {A B : Type} (f : A -> B) (d : B) (l : list A) (p : list nat) :
  Forall (fun i => (i < length l)%nat) p ->
  map f (take_positions l p) = map (fun i => nth i (map f l) d) p.
Proof.
  induction 1 as [| i p Hi _ IH]; simpl; [reflexivity |].
  destruct (nth_error l i) eqn:Hnth.
  - simpl. rewrite IH. f_equal.
    symmetry. apply nth_error_nth. now apply map_nth_error.
  - apply nth_error_None in Hnth. lia.
Qed.

(** A frame reordered by the argsort of a key: the same rows, by rising
    key. *)
Lemma take_argsort {A : Type} (key : A -> Q) (l : list A) :
  Permutation l (take_positions l (np_argsort (map key l))) /\
  StronglySorted Qle (map key (take_positions l (np_argsort (map key l)))).
Proof.
  pose proof (np_argsort_in_range (map key l)) as Hrange. rewrite length_map in Hrange.
  split.
  - rewrite <- (take_positions_all l []) at 1. simpl.
    apply take_positions_perm. rewrite <- (length_map key l). apply np_argsort_perm.
  - rewrite (take_positions_map key 0 l _ Hrange). apply np_argsort_sorted.
Qed.

Lemma StronglySorted_app_inv {A : Type} (R : A -> A -> Prop) (l1 l2 : list A) :
  StronglySorted R (l1 ++ l2) ->
  StronglySorted R l1 /\ StronglySorted R l2 /\
  forall x y, In x l1 -> In y l2 -> R x y.
Proof.
  induction l1 as [| a l1 IH]; simpl; intros H.
  - split; [constructor |]. split; [exact H |]. intros x y [].
  - inversion H as [| ? ? Hs Hall]; subst.
    destruct (IH Hs) as (H1 & H2 & H12). rewrite Forall_app in Hall.
    destruct Hall as [Ha1 Ha2]. split; [now constructor |]. split; [exact H2 |].
    intros x y [<- | Hx] Hy; [| now apply H12].
    rewrite Forall_forall in Ha2. now apply Ha2.
Qed.

(** ** The most popular songs *)

(** X17: the chart of top songs shows the 20 most popular rows of the
    catalog (all of them when there are fewer), most popular first: the
    catalog is these rows and the rows left out, and no row left out is more
    popular than a row shown. *)
Theorem top_songs_most_popular (data : DataFrame) :
  exists rest,
    Permutation data (top_songs data ++ rest) /\
    length (top_songs data) = Nat.min 20 (length data) /\
    StronglySorted (fun a b => popularity b <= popularity a) (top_songs data) /\
    forall shown left_out, In shown (top_songs data) -> In left_out rest ->
                           popularity left_out <= popularity shown.
Proof.
  set (key := fun r : Row => - popularity r).
  set (index := np_argsort (map key data)).
  destruct (take_argsort key data) as [Hperm Hsorted]. fold index in Hperm, Hsorted.
  assert (Forall (fun i => (i < length data)%nat) index) as Hrange.
  { pose proof (np_argsort_in_range (map key data)) as H. now rewrite length_map in H. }
  assert (forall a b, key a <= key b -> popularity b <= popularity a) as Hkey.
  { unfold key. intros a b H. apply Qopp_le_compat in H.
    now rewrite !Qopp_involutive in H. }
  unfold top_songs, nlargest_popularity. fold key. fold index.
  exists (take_positions data (skipn 20 index)).
  rewrite <- take_positions_app, firstn_skipn. split; [exact Hperm |].
  rewrite <- (firstn_skipn 20 index), take_positions_app, map_app in Hsorted.
  apply StronglySorted_app_inv in Hsorted. destruct Hsorted as (Htop & _ & Hbetween).
  split; [| split].
  - rewrite take_positions_length.
    + rewrite length_firstn. f_equal. unfold index.
      rewrite <- (Permutation_length (np_argsort_perm (map key data))).
      now rewrite length_seq, length_map.
    + apply Forall_forall. intros i Hi. rewrite Forall_forall in Hrange.
      apply Hrange. rewrite <- (firstn_skipn 20 index). apply in_or_app. now left.
  - clear - Htop Hkey. induction (take_positions data (firstn 20 index)) as [| a l IH].
    + constructor.
    + simpl in Htop. inversion Htop as [| ? ? Hs Hall]; subst. constructor; auto.
      rewrite Forall_forall in *. intros b Hb. apply Hkey. apply Hall. now apply in_map.
  - intros shown left_out Hshown Hleft. apply Hkey. apply Hbetween; now apply in_map.
Qed.

(** ** Songs per decade *)

Lemma release_decade_multiple (y : Z) : (release_decade y mod 10 = 0)%Z.
Proof. unfold release_decade. apply Z_mod_mult. Qed.

Lemma release_decade_iff (y d : Z) :
  (d mod 10 = 0)%Z ->
  release_decade y = d <-> (d <= y < d + 10)%Z.
Proof.
  intros Hd. unfold release_decade.
  pose proof (Z.div_mod y 10 ltac:(lia)) as Hy.
  pose proof (Z.mod_pos_bound y 10 ltac:(lia)) as Hy'.
  pose proof (Z.div_mod d 10 ltac:(lia)) as Hd'.
  rewrite Hd in Hd'. lia.
Qed.

Lemma count_decade (years : list Z) (d : Z) :
  (d mod 10 = 0)%Z ->
  count_occ Z.eq_dec (map release_decade years) d = length (filter (in_decade d) years).
Proof.
  intros Hd. induction years as [| y years IH]; simpl; [reflexivity |].
  pose proof (release_decade_iff y d Hd) as Hiff.
  unfold in_decade at 1.
  destruct (Z.eq_dec (release_decade y) d) as [He | Hne].
  - apply Hiff in He.
    replace ((d <=? y)%Z && (y <? d + 10)%Z) with true by (symmetry; apply andb_true_iff; lia).
    simpl. now rewrite IH.
  - replace ((d <=? y)%Z && (y <? d + 10)%Z) with false; [exact IH |].
    symmetry. apply andb_false_iff.
    destruct (Z.leb_spec d y); destruct (Z.ltb_spec y (d + 10)); auto.
    exfalso. apply Hne, Hiff. lia.
Qed.

Lemma in_value_counts (l : list Z) (v : Z) (c : nat) :
  In (v, c) (value_counts l) <-> In v l /\ c = count_occ Z.eq_dec l v.
Proof.
  unfold value_counts. rewrite in_map_iff. split.
  - intros (x & [= <- <-] & Hx). apply nodup_In in Hx. auto.
  - intros [Hv ->]. exists v. split; [reflexivity | now apply nodup_In].
Qed.

Lemma sum_indicator_out (a : Z) (vs : list Z) :
  ~ In a vs ->
  list_sum (map (fun v => if Z.eq_dec a v then 1%nat else 0%nat) vs) = 0%nat.
Proof.
  induction vs as [| v vs IH]; simpl; intros Hout; [reflexivity |].
  destruct (Z.eq_dec a v) as [He | Hne].
  - exfalso. apply Hout. left. congruence.
  - apply IH. intros Hin. apply Hout. now right.
Qed.

Lemma sum_indicator_in (a : Z) (vs : list Z) :
  NoDup vs -> In a vs ->
  list_sum (map (fun v => if Z.eq_dec a v then 1%nat else 0%nat) vs) = 1%nat.
Proof.
  induction 1 as [| v vs Hv _ IH]; simpl; intros Hin; [destruct Hin |].
  destruct (Z.eq_dec a v) as [He | Hne].
  - subst v. now rewrite (sum_indicator_out a vs Hv).
  - destruct Hin as [He | Hin]; [congruence | now apply IH].
Qed.

Lemma sum_count_occ (l vs : list Z) :
  NoDup vs -> incl l vs ->
  list_sum (map (count_occ Z.eq_dec l) vs) = length l.
Proof.
  intros Hnd. induction l as [| a l IH]; intros Hincl.
  - simpl. clear. induction vs as [| v vs IHv]; simpl; auto.
  - assert (In a vs) as Ha by (apply Hincl; now left).
    assert (list_sum (map (count_occ Z.eq_dec (a :: l)) vs)
            = (list_sum (map (fun v => if Z.eq_dec a v then 1%nat else 0%nat) vs)
               + list_sum (map (count_occ Z.eq_dec l) vs))%nat) as Hsplit.
    { clear. induction vs as [| v vs IHv]; [reflexivity |].
      unfold list_sum in *. cbn [map fold_right]. rewrite IHv. cbn [count_occ].
      destruct (Z.eq_dec a v); lia. }
    etransitivity; [exact Hsplit |].
    rewrite (sum_indicator_in a vs Hnd Ha), IH; [reflexivity |].
    intros x Hx. apply Hincl. now right.
Qed.

Lemma list_sum_perm (l l' : list nat) : Permutation l l' -> list_sum l = list_sum l'.
Proof.
  induction 1; simpl; lia.
Qed.

Lemma sorted_by_key (l : list (Z * nat)) :
  StronglySorted Qle (map (fun p : Z * nat => inject_Z (fst p)) l) ->
  StronglySorted (fun a b => (fst a <= fst b)%Z) l.
Proof.
  induction l as [| a l IH]; intros Hsorted; [constructor |].
  simpl in Hsorted. inversion Hsorted as [| ? ? Hs Hall]; subst. constructor; auto.
  apply Forall_forall. intros b Hb. rewrite Forall_forall in Hall.
  rewrite Zle_Qle. apply Hall.
  now apply (in_map (fun p : Z * nat => inject_Z (fst p))).
Qed.

Lemma sort_index_perm (counts : list (Z * nat)) :
  Permutation counts (sort_index counts) /\
  StronglySorted (fun a b => (fst a <= fst b)%Z) (sort_index counts).
Proof.
  unfold sort_index.
  destruct (take_argsort (fun p : Z * nat => inject_Z (fst p)) counts) as [Hperm Hsorted].
  split; [exact Hperm | now apply sorted_by_key].
Qed.

Lemma strictly_sorted (l : list (Z * nat)) :
  StronglySorted (fun a b => (fst a <= fst b)%Z) l ->
  NoDup (map fst l) ->
  StronglySorted (fun a b => (fst a < fst b)%Z) l.
Proof.
  induction 1 as [| a l Hs IH Hall]; intros Hnd; [constructor |].
  simpl in Hnd. inversion Hnd as [| ? ? Ha Hnd']; subst. constructor; auto.
  rewrite Forall_forall in *. intros b Hb.
  specialize (Hall b Hb).
  assert (fst a <> fst b) as Hne.
  { intros He. apply Ha. rewrite He. now apply in_map. }
  lia.
Qed.

(** X18: the chart of songs per decade has one bar for each decade in which
    a song was released, by rising decade; a decade is a multiple of ten and
    its count the number of songs released from it up to nine years later;
    the counts add up to the number of songs. *)
Theorem decade_counts_chart (release_years : list Z) :
  StronglySorted (fun a b => (fst a < fst b)%Z) (decade_counts release_years) /\
  (forall d c,
      In (d, c) (decade_counts release_years) <->
      (d mod 10 = 0)%Z /\
      c = length (filter (in_decade d) release_years) /\
      (0 < c)%nat) /\
  list_sum (map snd (decade_counts release_years)) = length release_years.
Proof.
  unfold decade_counts.
  set (decades := map release_decade release_years).
  destruct (sort_index_perm (value_counts decades)) as [Hperm Hsorted].
  assert (map fst (value_counts decades) = nodup Z.eq_dec decades) as Hkeys.
  { unfold value_counts. rewrite map_map. simpl. apply map_id. }
  split; [| split].
  - apply strictly_sorted; [exact Hsorted |].
    apply (Permutation_NoDup (Permutation_map fst Hperm)).
    rewrite Hkeys. apply NoDup_nodup.
  - intros d c. split.
    + intros Hin. apply (Permutation_in _ (Permutation_sym Hperm)) in Hin.
      apply in_value_counts in Hin. destruct Hin as [Hd ->].
      assert (d mod 10 = 0)%Z as Hmod.
      { unfold decades in Hd. apply in_map_iff in Hd. destruct Hd as (y & <- & _).
        apply release_decade_multiple. }
      split; [exact Hmod |]. split; [now apply count_decade |].
      now apply count_occ_In.
    + intros (Hmod & -> & Hpos). apply (Permutation_in _ Hperm).
      apply in_value_counts. rewrite <- (count_decade release_years d Hmod) in *.
      fold decades in Hpos |- *. split; [| reflexivity].
      now apply (count_occ_In Z.eq_dec).
  - rewrite <- (list_sum_perm _ _ (Permutation_map snd Hperm)).
    unfold value_counts. rewrite map_map. simpl.
    rewrite sum_count_occ.
    + unfold decades. apply length_map.
    + apply NoDup_nodup.
    + intros x Hx. now apply nodup_In.
Qed.
